(** * A shallow embedding of [src/src/tls_stream.rs] and [src/src/tls.rs]

    The TLS stream of the nrf-modem crate: connection establishment with
    fallback over the resolved candidate addresses, the chunked receive and
    write loops generated by the [impl_receive!] / [impl_write!] macros, and
    the borrowed split.

    The collaborators of this file ([Socket], [LteLink], [ToSocketAddrs],
    [CancellationToken]) live outside it; they are represented by an
    environment of their observable answers, indexed by the attempt (or call)
    number inside one call of the file's functions, so that every theorem
    quantifies over all their behaviours.  Each call made to a collaborator is
    recorded in a trace of events. *)

From Stdlib Require Import List Arith Lia Bool ZArith.
Import ListNotations.

(** ** Basic types *)

(** Rust's [Result]. *)
Inductive result (A E : Type) : Type :=
| Ok (a : A)
| Err (e : E).
Arguments Ok {A E} a.
Arguments Err {A E} e.

Definition u8 := Byte.byte.

(** [crate::error::Error], reduced to the variants this file can produce. *)
Inductive Error : Type :=
| OperationCancelled
| NrfError (code : Z).

(** [no_std_net::SocketAddr]: an address with its family. *)
Inductive SocketAddr : Type :=
| V4 (ip : Z) (port : Z)
| V6 (ip : Z) (port : Z).

Inductive SocketFamily : Type := Ipv4 | Ipv6.

(** [crate::socket::SocketOption], the variants used here. *)
Inductive SocketOption : Type :=
| TlsPeerVerify (v : Z)
| TlsSessionCache (v : Z)
| TlsTagList (tags : list Z).

(** [crate::socket::Socket], identified by its file descriptor. *)
Record Socket : Type := mkSocket { fd : Z }.

(** [pub struct TlsStream { inner: Socket }] *)
Record TlsStream : Type := mkTlsStream { inner : Socket }.

(** ** [src/src/tls.rs] *)

Inductive PeerVerification : Type := Enabled | Optional | Disabled.

Definition as_integer (p : PeerVerification) : Z :=
  match p with
  | Enabled => 2
  | Optional => 1
  | Disabled => 0
  end.

(** ** Execution of a Rust function body

    [step R A]: the body either continues with a value of type [A], has
    returned (through [?] or [return]) a value of the function's return type
    [R], or has panicked. *)
Inductive step (R A : Type) : Type :=
| Next (a : A)
| Return (r : R)
| Panic.
Arguments Next {R A} a.
Arguments Return {R A} r.
Arguments Panic {R A}.

(** Calls to collaborators made by the function body, in the order they are
    made; drop glue run for locals on an early return is not recorded.  The
    attempt number [i] of a candidate address is a ghost annotation that
    identifies the socket of that attempt (file descriptors may be
    reused). *)
Inductive Event : Type :=
| LinkActivate
| Create (i : nat) (f : SocketFamily)
| SetOption (i : nat) (o : SocketOption)
| Connect (i : nat) (a : SocketAddr)
| SocketDeactivate (i : nat)
| LinkDeactivate.

Definition M (R A : Type) : Type := list Event -> list Event * step R A.

Definition ret {R A} (a : A) : M R A := fun tr => (tr, Next a).

Definition bind {R A B} (m : M R A) (f : A -> M R B) : M R B :=
  fun tr =>
    match m tr with
    | (tr', Next a) => f a tr'
    | (tr', Return r) => (tr', Return r)
    | (tr', Panic) => (tr', Panic)
    end.

Notation "'let*' x ':=' m 'in' k" := (bind m (fun x => k))
  (at level 200, x name, m at level 100, right associativity).

(** [return r] *)
Definition early_return {R A} (r : R) : M R A := fun tr => (tr, Return r).

(** [x.unwrap()] on an [Option]. *)
Definition unwrap {R A} (o : option A) : M R A :=
  fun tr => match o with Some a => (tr, Next a) | None => (tr, Panic) end.

(** [x?] in a function returning [Result<_, Error>]. *)
Definition try_ {B A} (r : result A Error) : M (result B Error) A :=
  fun tr => match r with Ok a => (tr, Next a) | Err e => (tr, Return (Err e)) end.

(** A call to a collaborator: it is recorded, and its answer is returned. *)
Definition call {R A} (ev : Event) (answer : A) : M R A :=
  fun tr => (tr ++ [ev], Next answer).

(** ** The collaborators of [connect_with_cancellation]

    Their answers inside one call of [connect_with_cancellation]; the socket
    operations are indexed by the attempt number of the candidate. *)
Record Env : Type := mkEnv {
  lte_new : result unit Error;                          (** [LteLink::new()] *)
  to_socket_addrs : result (list SocketAddr) unit;      (** [addr.to_socket_addrs()] *)
  create : nat -> SocketFamily -> result Socket Error;  (** [Socket::create] *)
  set_option : nat -> SocketOption -> result unit Error;(** [socket.set_option] *)
  sock_connect : nat -> SocketAddr -> result unit Error;(** [socket.connect(addr, token)] *)
  sock_deactivate : nat -> result unit Error;           (** [socket.deactivate()] *)
  lte_deactivate : result unit Error                    (** [lte_link.deactivate()] *)
}.

(** A [CancellationToken], observed at the check before attempt [i]. *)
Definition Token := nat -> bool.

(** [CancellationToken::default()]: never cancelled. *)
Definition default_token : Token := fun _ => false.

(** [token.as_result()] *)
Definition as_result (t : Token) (i : nat) : result unit Error :=
  if t i then Err OperationCancelled else Ok tt.

Definition family_of (a : SocketAddr) : SocketFamily :=
  match a with V4 _ _ => Ipv4 | V6 _ _ => Ipv6 end.

(** ** [TlsStream::connect_with_cancellation] *)

Section Connect.
Variable env : Env.
Variable token : Token.
Variable peer_verify : PeerVerification.
Variable security_tags : list Z.

Definition RetC := result TlsStream Error.

(** The [for addr in addrs] loop.  It continues with [last_error] when the
    candidates are exhausted; [i] is the number of the current attempt. *)
Fixpoint connect_loop (i : nat) (addrs : list SocketAddr)
    (last_error : option Error) : M RetC (option Error) :=
  match addrs with
  | [] => ret last_error
  | addr :: rest =>
      let* _ := try_ (as_result token i) in
      let family := family_of addr in
      let* socket := let* r := call (Create i family) (create env i family) in try_ r in
      let* _ := let o := TlsPeerVerify (as_integer peer_verify) in
                let* r := call (SetOption i o) (set_option env i o) in try_ r in
      let* _ := let o := TlsSessionCache 0 in
                let* r := call (SetOption i o) (set_option env i o) in try_ r in
      let* _ := let o := TlsTagList security_tags in
                let* r := call (SetOption i o) (set_option env i o) in try_ r in
      let* c := call (Connect i addr) (sock_connect env i addr) in
      match c with
      | Ok _ =>
          let* r := call LinkDeactivate (lte_deactivate env) in
          let* _ := try_ r in
          early_return (Ok (mkTlsStream socket))
      | Err e =>
          let last_error := Some e in
          let* r := call (SocketDeactivate i) (sock_deactivate env i) in
          let* _ := try_ r in
          connect_loop (S i) rest last_error
      end
  end.

Definition connect_body : M RetC RetC :=
  let last_error := @None Error in
  let* r := call LinkActivate (lte_new env) in
  let* _ := try_ r in
  let* addrs := unwrap (match to_socket_addrs env with Ok l => Some l | Err _ => None end) in
  let* last_error := connect_loop 0 addrs last_error in
  let* r := call LinkDeactivate (lte_deactivate env) in
  let* _ := try_ r in
  let* e := unwrap last_error in
  ret (Err e).

End Connect.

(** The observable end of a call: a returned value, or a panic. *)
Inductive outcome (A : Type) : Type :=
| Returned (a : A)
| Panicked.
Arguments Returned {A} a.
Arguments Panicked {A}.

Definition run {R} (m : M R R) : list Event * outcome R :=
  match m [] with
  | (tr, Next r) => (tr, Returned r)
  | (tr, Return r) => (tr, Returned r)
  | (tr, Panic) => (tr, Panicked)
  end.

Definition connect_with_cancellation (env : Env) (pv : PeerVerification)
    (tags : list Z) (token : Token) : list Event * outcome (result TlsStream Error) :=
  run (connect_body env token pv tags).

Definition connect (env : Env) (pv : PeerVerification) (tags : list Z)
    : list Event * outcome (result TlsStream Error) :=
  connect_with_cancellation env pv tags default_token.

(** ** The [impl_receive!] macro

    The macro is expanded in [TlsStream], [TlsReadStream] and
    [OwnedTlsReadStream]; the three expansions differ only in [socket()], so
    one embedding, parameterised by the raw receive of that socket, covers
    them all. *)

(** The raw receive [self.socket().receive(slice, token)]: its [k]-th call
    in one operation, asked to fill a slice of length [n], answers the bytes
    it wrote into the slice, or an error (a cancellation of [token] shows up
    here as [Err OperationCancelled]). *)
Definition RawReceive := nat -> nat -> result (list u8) Error.

Section Receive.
Variable rr : RawReceive.

(** Modelled from the spec: [Socket::receive] (src/socket.rs, not in this
    source tree) is one bounded transfer into the slice it is given: it fills
    a prefix of the slice, never more than the slice holds, and reports how
    many bytes it wrote.  Returns the new contents of the slice. *)
Definition socket_receive (k : nat) (slice : list u8) : list u8 * result nat Error :=
  match rr k (length slice) with
  | Ok d =>
      let w := firstn (length slice) d in
      (w ++ skipn (length w) slice, Ok (length w))
  | Err e => (slice, Err e)
  end.

(** One raw receive as it is recorded: the length of the slice passed and
    the answer (the bytes written, or the error). *)
Definition RecvCall : Type := nat * result (list u8) Error.

Definition recv_record (k : nat) (slice : list u8) : RecvCall :=
  (length slice,
   match socket_receive k slice with
   | (s', Ok n) => Ok (firstn n s')
   | (_, Err e) => Err e
   end).

(** [receive_with_cancellation(buf, token)]: returns the calls made, the new
    contents of [buf] and the result (the written prefix [&mut buf[..n]]). *)
Definition receive_with_cancellation (k : nat) (buf : list u8)
    : list RecvCall * list u8 * outcome (result (list u8) Error) :=
  let max_receive_len := Nat.min 1024 (length buf) in
  let slice := firstn max_receive_len buf in
  let (slice', r) := socket_receive k slice in
  let buf' := slice' ++ skipn max_receive_len buf in
  let calls := [recv_record k slice] in
  match r with
  | Err e => (calls, buf', Returned (Err e))
  | Ok received_bytes =>
      if received_bytes <=? length buf'
      then (calls, buf', Returned (Ok (firstn received_bytes buf')))
      else (calls, buf', Panicked)      (* slice index out of range *)
  end.

(** [receive(buf)] calls [receive_with_cancellation] with the default token,
    which only changes what the raw receive answers. *)
Definition receive (k : nat) (buf : list u8) :=
  receive_with_cancellation k buf.

(** The [while received_bytes < buf.len()] loop of
    [receive_exact_with_cancellation].  The loop is unbounded in the source;
    [fuel] bounds the number of iterations observed, and [None] means the
    operation is still waiting when the fuel runs out.  [k] numbers the raw
    receives. *)
Fixpoint receive_exact_loop (fuel k : nat) (buf : list u8) (received_bytes : nat)
    (calls : list RecvCall)
    : list RecvCall * list u8 * option (outcome (result unit (Error * list u8))) :=
  if received_bytes <? length buf then
    match fuel with
    | O => (calls, buf, None)
    | S fuel' =>
        match receive_with_cancellation k (skipn received_bytes buf) with
        | (c, rest', r) =>
            let buf' := firstn received_bytes buf ++ rest' in
            match r with
            | Returned (Ok received_data) =>
                receive_exact_loop fuel' (S k) buf'
                  (received_bytes + length received_data) (calls ++ c)
            | Returned (Err e) =>
                (calls ++ c, buf', Some (Returned (Err (e, firstn received_bytes buf'))))
            | Panicked => (calls ++ c, buf', Some Panicked)
            end
        end
    end
  else (calls, buf, Some (Returned (Ok tt))).

Definition receive_exact_with_cancellation (fuel : nat) (buf : list u8) :=
  receive_exact_loop fuel 0 buf 0 [].

Definition receive_exact (fuel : nat) (buf : list u8) :=
  receive_exact_with_cancellation fuel buf.

End Receive.

(** ** The [impl_write!] macro *)

(** The raw write [self.socket().write(chunk, token)]: its [k]-th call in one
    operation, given [chunk], answers the number of bytes accepted or an
    error. *)
Definition RawWrite := nat -> list u8 -> result nat Error.

Section Write.
Variable ww : RawWrite.

Definition WriteCall : Type := list u8 * result nat Error.

(** The [while written_bytes < buf.len()] loop of [write_with_cancellation];
    [fuel] as for [receive_exact_loop]. *)
Fixpoint write_loop (fuel k : nat) (buf : list u8) (written_bytes : nat)
    (calls : list WriteCall) : list WriteCall * option (result unit Error) :=
  if written_bytes <? length buf then
    match fuel with
    | O => (calls, None)
    | S fuel' =>
        let max_write_len := Nat.min 1024 (length buf - written_bytes) in
        let chunk := firstn max_write_len (skipn written_bytes buf) in
        match ww k chunk with
        | Ok n => write_loop fuel' (S k) buf (written_bytes + n) (calls ++ [(chunk, Ok n)])
        | Err e => (calls ++ [(chunk, Err e)], Some (Err e))
        end
    end
  else (calls, Some (Ok tt)).

Definition write_with_cancellation (fuel : nat) (buf : list u8) :=
  write_loop fuel 0 buf 0 [].

Definition write (fuel : nat) (buf : list u8) := write_with_cancellation fuel buf.

End Write.

(** ** Accessors and the borrowed split *)

Definition as_raw_fd (s : TlsStream) : Z := fd (inner s).

(** [TlsReadStream<'a> { stream: &'a TlsStream }] and its write twin. *)
Record TlsReadStream : Type := mkTlsReadStream { rstream : TlsStream }.
Record TlsWriteStream : Type := mkTlsWriteStream { wstream : TlsStream }.

Definition read_socket (r : TlsReadStream) : Socket := inner (rstream r).
Definition write_socket (w : TlsWriteStream) : Socket := inner (wstream w).

(** [split(&self)]: runs in the same execution monad as [connect], where a
    change to a transport would be a recorded event. *)
Definition split {R} (self : TlsStream) : M R (TlsReadStream * TlsWriteStream) :=
  ret (mkTlsReadStream self, mkTlsWriteStream self).

(** ** Concrete collaborator behaviours *)

(** Two candidates: the first handshake is refused, the second succeeds. *)
Definition env_retry : Env := {|
  lte_new := Ok tt;
  to_socket_addrs := Ok [V4 10 443; V6 20 443];
  create := fun i _ => Ok (mkSocket (Z.of_nat i + 3));
  set_option := fun _ _ => Ok tt;
  sock_connect := fun i _ => if Nat.eqb i 0 then Err (NrfError 111) else Ok tt;
  sock_deactivate := fun _ => Ok tt;
  lte_deactivate := Ok tt |}.

(** One candidate whose handshake succeeds, then the LTE link fails to
    deactivate. *)
Definition env_link_fails : Env := {|
  lte_new := Ok tt;
  to_socket_addrs := Ok [V4 10 443];
  create := fun i _ => Ok (mkSocket (Z.of_nat i + 3));
  set_option := fun _ _ => Ok tt;
  sock_connect := fun _ _ => Ok tt;
  sock_deactivate := fun _ => Ok tt;
  lte_deactivate := Err (NrfError 5) |}.

(** Every handshake is refused, with a distinct error per attempt; the
    sockets deactivate, and so does the link unless [link] says otherwise. *)
Definition env_all_fail (addrs : list SocketAddr) (link : result unit Error) : Env := {|
  lte_new := Ok tt;
  to_socket_addrs := Ok addrs;
  create := fun i _ => Ok (mkSocket (Z.of_nat i + 3));
  set_option := fun _ _ => Ok tt;
  sock_connect := fun i _ => Err (NrfError (111 + Z.of_nat i));
  sock_deactivate := fun _ => Ok tt;
  lte_deactivate := link |}.

(** Two refused handshakes; the second socket fails to deactivate. *)
Definition env_deactivate_fails : Env := {|
  lte_new := Ok tt;
  to_socket_addrs := Ok [V4 10 443; V6 20 443];
  create := fun i _ => Ok (mkSocket (Z.of_nat i + 3));
  set_option := fun _ _ => Ok tt;
  sock_connect := fun i _ => Err (NrfError 111);
  sock_deactivate := fun i => if Nat.eqb i 1 then Err (NrfError 9) else Ok tt;
  lte_deactivate := Ok tt |}.

(** A token that is cancelled from attempt [n] on. *)
Definition cancelled_from (n : nat) : Token := fun i => Nat.leb n i.

(** Resolution fails. *)
Definition env_unresolvable : Env := {|
  lte_new := Ok tt;
  to_socket_addrs := Err tt;
  create := fun i _ => Ok (mkSocket (Z.of_nat i + 3));
  set_option := fun _ _ => Ok tt;
  sock_connect := fun _ _ => Ok tt;
  sock_deactivate := fun _ => Ok tt;
  lte_deactivate := Ok tt |}.

(** The LTE link cannot be activated, and the address does not resolve. *)
Definition env_no_link : Env := {|
  lte_new := Err (NrfError 3);
  to_socket_addrs := Err tt;
  create := fun i _ => Ok (mkSocket (Z.of_nat i + 3));
  set_option := fun _ _ => Ok tt;
  sock_connect := fun _ _ => Ok tt;
  sock_deactivate := fun _ => Ok tt;
  lte_deactivate := Ok tt |}.

(** Two candidates; the second one's tag list is refused. *)
Definition env_tags_refused : Env := {|
  lte_new := Ok tt;
  to_socket_addrs := Ok [V4 10 443; V6 20 443];
  create := fun i _ => Ok (mkSocket (Z.of_nat i + 3));
  set_option := fun i o => match o with
                           | TlsTagList _ => if Nat.eqb i 1 then Err (NrfError 22) else Ok tt
                           | _ => Ok tt
                           end;
  sock_connect := fun _ _ => Err (NrfError 111);
  sock_deactivate := fun _ => Ok tt;
  lte_deactivate := Ok tt |}.

(** A raw receive delivering [chunk] bytes of [0x2a] per call, then failing
    at call [fail_at] with a reset. *)
Definition rr_trickle (chunk fail_at : nat) : RawReceive :=
  fun k _ => if Nat.eqb k fail_at then Err (NrfError 104)
             else Ok (repeat Byte.x2a chunk).

(** A raw write accepting every chunk whole. *)
Definition ww_accept_all : RawWrite := fun _ c => Ok (length c).

(** * Observations on the receive and write loops *)

(** The bytes the recorded raw receives wrote, in order. *)
Fixpoint recv_bytes (calls : list RecvCall) : list u8 :=
  match calls with
  | [] => []
  | (_, Ok d) :: cs => d ++ recv_bytes cs
  | (_, Err _) :: cs => recv_bytes cs
  end.

Definition all_ok (calls : list RecvCall) : Prop :=
  Forall (fun c => exists d, snd c = Ok d) calls.

(** The number of bytes the recorded raw writes accepted. *)
Fixpoint accepted (calls : list WriteCall) : nat :=
  match calls with
  | [] => 0
  | (_, Ok n) :: cs => n + accepted cs
  | (_, Err _) :: cs => accepted cs
  end.

Definition all_written (calls : list WriteCall) : Prop :=
  Forall (fun c => exists n, snd c = Ok n) calls.

(** The recorded raw writes, the first one made when [off] bytes of [buf]
    were accepted, are each issued while bytes remain, on the next
    [min(1024, remaining)] bytes of [buf], and nothing follows an error. *)
Fixpoint chunked (buf : list u8) (off : nat) (calls : list WriteCall) : Prop :=
  match calls with
  | [] => True
  | (c, r) :: cs =>
      off < length buf /\
      c = firstn (Nat.min 1024 (length buf - off)) (skipn off buf) /\
      match r with
      | Ok n => chunked buf (off + n) cs
      | Err _ => cs = []
      end
  end.

(** The raw receives recorded by [receive_exact] on a buffer of [len] bytes,
    the first made after [off] bytes were received: each is made while bytes
    are missing, on a slice of [min(1024, missing)] bytes, and nothing follows
    an error. *)
Fixpoint recv_sized (len off : nat) (calls : list RecvCall) : Prop :=
  match calls with
  | [] => True
  | (n, r) :: cs =>
      off < len /\ n = Nat.min 1024 (len - off) /\
      match r with
      | Ok d => recv_sized len (off + length d) cs
      | Err _ => cs = []
      end
  end.

(** A raw receive that always answers without writing anything. *)
Definition rr_silent : RawReceive := fun _ _ => Ok [].

(** A raw write that never accepts a byte. *)
Definition ww_stalled : RawWrite := fun _ _ => Ok 0.

(** A raw receive filling every slice it is given. *)
Definition rr_fill : RawReceive := fun _ n => Ok (repeat Byte.x2a n).

(** * Properties of [connect_with_cancellation] *)

Definition is_link_deactivate (ev : Event) : bool :=
  match ev with LinkDeactivate => true | _ => false end.

Definition is_link_activate (ev : Event) : bool :=
  match ev with LinkActivate => true | _ => false end.

(** Number of [lte_link.deactivate()] calls in a trace. *)
Definition link_deactivations (tr : list Event) : nat :=
  length (filter is_link_deactivate tr).

Definition link_activations (tr : list Event) : nat :=
  length (filter is_link_activate tr).

(** The candidate attempt an event belongs to, if any. *)
Definition attempt_of (ev : Event) : option nat :=
  match ev with
  | Create i _ | SetOption i _ | Connect i _ | SocketDeactivate i => Some i
  | LinkActivate | LinkDeactivate => None
  end.

(** The event belongs to no attempt numbered [>= n]. *)
Definition before_attempt (n : nat) (ev : Event) : Prop :=
  match attempt_of ev with Some i => i < n | None => True end.

Section ConnectProofs.
Variable env : Env.
Variable token : Token.
Variable pv : PeerVerification.
Variable tags : list Z.

Local Abbreviation loop := (connect_loop env token pv tags).

(** Attempt [i] on candidate [a] gets as far as the handshake, with socket [s]:
    the token is not cancelled, the socket is created and the three options
    are set. *)
Definition reaches_handshake (i : nat) (a : SocketAddr) (s : Socket) : Prop :=
  token i = false /\
  create env i (family_of a) = Ok s /\
  set_option env i (TlsPeerVerify (as_integer pv)) = Ok tt /\
  set_option env i (TlsSessionCache 0) = Ok tt /\
  set_option env i (TlsTagList tags) = Ok tt.

(** Attempt [i] on [a] fails its handshake and its socket is deactivated. *)
Definition fails_cleanly (i : nat) (a : SocketAddr) : Prop :=
  (exists s, reaches_handshake i a s) /\
  (exists e, sock_connect env i a = Err e) /\
  sock_deactivate env i = Ok tt.

Definition attempt_events (i : nat) (a : SocketAddr) : list Event :=
  [Create i (family_of a); SetOption i (TlsPeerVerify (as_integer pv));
   SetOption i (TlsSessionCache 0); SetOption i (TlsTagList tags); Connect i a].

Fixpoint fail_blocks (i : nat) (pre : list SocketAddr) : list Event :=
  match pre with
  | [] => []
  | a :: p => attempt_events i a ++ [SocketDeactivate i] ++ fail_blocks (S i) p
  end.

Fixpoint last_error_after (i : nat) (pre : list SocketAddr) (le : option Error)
    : option Error :=
  match pre with
  | [] => le
  | a :: p =>
      last_error_after (S i) p
        (match sock_connect env i a with Err e => Some e | Ok _ => le end)
  end.

(** The traces of the candidate loop started at attempt [i] on [addrs]; the
    flag tells whether the loop ran out of candidates ([true]) or returned
    from inside. *)
Inductive loop_trace : nat -> list SocketAddr -> bool -> list Event -> Prop :=
| lt_exhausted i : loop_trace i [] true []
| lt_cancelled i a rest : loop_trace i (a :: rest) false []
| lt_setup_failed i a rest k :
    1 <= k <= 4 -> loop_trace i (a :: rest) false (firstn k (attempt_events i a))
| lt_connected i a rest :
    loop_trace i (a :: rest) false (attempt_events i a ++ [LinkDeactivate])
| lt_deactivate_failed i a rest :
    loop_trace i (a :: rest) false (attempt_events i a ++ [SocketDeactivate i])
| lt_retry i a rest fin t :
    loop_trace (S i) rest fin t ->
    loop_trace i (a :: rest) fin (attempt_events i a ++ [SocketDeactivate i] ++ t).

(** The handshake attempts of a trace: attempt number and address. *)
Fixpoint connects (tr : list Event) : list (nat * SocketAddr) :=
  match tr with
  | [] => []
  | Connect i a :: t => (i, a) :: connects t
  | _ :: t => connects t
  end.

(** The candidates numbered from [i]. *)
Fixpoint numbered (i : nat) (addrs : list SocketAddr) : list (nat * SocketAddr) :=
  match addrs with
  | [] => []
  | a :: rest => (i, a) :: numbered (S i) rest
  end.


(** Where an error can come from: the cancellation check, or the answer of
    one of the collaborators. *)
Definition error_source (e : Error) : Prop :=
  (e = OperationCancelled /\ exists i, token i = true) \/
  lte_new env = Err e \/ lte_deactivate env = Err e \/
  (exists i f, create env i f = Err e) \/
  (exists i o, set_option env i o = Err e) \/
  (exists i a, sock_connect env i a = Err e) \/
  (exists i, sock_deactivate env i = Err e).

(** Every computation of [M] only appends to the trace. *)
Definition extends {R A} (m : M R A) : Prop :=
  forall tr, exists post, fst (m tr) = tr ++ post.

Lemma loop_cancelled i a rest le tr :
  token i = true ->
  loop i (a :: rest) le tr = (tr, Return (Err OperationCancelled)).
Proof. intros Ht. cbn. unfold as_result. rewrite Ht. reflexivity. Qed.

Lemma loop_handshake_fails i a rest le tr s e :
  reaches_handshake i a s -> sock_connect env i a = Err e ->
  loop i (a :: rest) le tr =
  let tr' := tr ++ attempt_events i a ++ [SocketDeactivate i] in
  match sock_deactivate env i with
  | Ok _ => loop (S i) rest (Some e) tr'
  | Err d => (tr', Return (Err d))
  end.
Proof.
  intros (Ht & Hc & Ho1 & Ho2 & Ho3) He. cbn. unfold as_result.
  rewrite Ht, Hc, Ho1, Ho2, Ho3, He. cbn.
  unfold attempt_events. rewrite <- !app_assoc. cbn.
  destruct (sock_deactivate env i); reflexivity.
Qed.

Lemma loop_handshake_ok i a rest le tr s :
  reaches_handshake i a s -> sock_connect env i a = Ok tt ->
  loop i (a :: rest) le tr =
  (tr ++ attempt_events i a ++ [LinkDeactivate],
   Return (match lte_deactivate env with
           | Ok _ => Ok (mkTlsStream s)
           | Err d => Err d
           end)).
Proof.
  intros (Ht & Hc & Ho1 & Ho2 & Ho3) He. cbn. unfold as_result.
  rewrite Ht, Hc, Ho1, Ho2, Ho3, He. cbn.
  unfold attempt_events. rewrite <- !app_assoc. cbn.
  destruct (lte_deactivate env); reflexivity.
Qed.

Lemma loop_fail_prefix pre : forall i rest le tr,
  (forall j a, nth_error pre j = Some a -> fails_cleanly (i + j) a) ->
  loop i (pre ++ rest) le tr =
  loop (i + length pre) rest (last_error_after i pre le) (tr ++ fail_blocks i pre).
Proof.
  induction pre as [|a pre IH]; intros i rest le tr Hf.
  - cbn. rewrite Nat.add_0_r, app_nil_r. reflexivity.
  - destruct (Hf 0 a eq_refl) as ([s Hs] & [e He] & Hd).
    rewrite Nat.add_0_r in Hs, He, Hd.
    cbn [app]. rewrite (loop_handshake_fails i a (pre ++ rest) le tr s e Hs He), Hd.
    rewrite IH.
    + cbn [length last_error_after fail_blocks]. rewrite He.
      rewrite Nat.add_succ_comm, !app_assoc. reflexivity.
    + intros j b Hj. rewrite Nat.add_succ_comm. apply (Hf (S j) b Hj).
Qed.


Lemma extends_ret {R A} (a : A) : extends (@ret R A a).
Proof. intros tr. exists []. now rewrite app_nil_r. Qed.

Lemma extends_call {R A} ev (x : A) : extends (@call R A ev x).
Proof. intros tr. exists [ev]. reflexivity. Qed.

Lemma extends_try {B A} (r : result A Error) : extends (@try_ B A r).
Proof. intros tr. exists []. rewrite app_nil_r. destruct r; reflexivity. Qed.

Lemma extends_early_return {R A} (r : R) : extends (@early_return R A r).
Proof. intros tr. exists []. now rewrite app_nil_r. Qed.

Lemma extends_bind {R A B} (m : M R A) (f : A -> M R B) :
  extends m -> (forall a, extends (f a)) -> extends (bind m f).
Proof.
  intros Hm Hf tr. unfold bind.
  destruct (Hm tr) as [p1 E1]. destruct (m tr) as [tr1 [a|r|]] eqn:Em;
    cbn in E1; subst tr1.
  - destruct (Hf a (tr ++ p1)) as [p2 E2]. exists (p1 ++ p2).
    now rewrite E2, app_assoc.
  - now exists p1.
  - now exists p1.
Qed.


Ltac solve_extends :=
  repeat first
    [ apply extends_bind
    | apply extends_ret | apply extends_call | apply extends_try
    | apply extends_early_return
    | progress intros
    | match goal with |- extends (match ?c with _ => _ end) => destruct c end ].

Lemma extends_loop i addrs le : extends (loop i addrs le).
Proof.
  revert i le. induction addrs as [|a rest IH]; intros i le; cbn;
    solve_extends; apply IH.
Qed.

Lemma connect_unfold addrs :
  lte_new env = Ok tt -> to_socket_addrs env = Ok addrs ->
  connect_with_cancellation env pv tags token =
  match loop 0 addrs None [LinkActivate] with
  | (tr, Next le) =>
      (tr ++ [LinkDeactivate],
       match lte_deactivate env with
       | Ok _ => match le with Some e => Returned (Err e) | None => Panicked end
       | Err d => Returned (Err d)
       end)
  | (tr, Return r) => (tr, Returned r)
  | (tr, Panic) => (tr, Panicked)
  end.
Proof.
  intros Hn Hr. unfold connect_with_cancellation, run, connect_body.
  unfold bind, call, try_, unwrap, ret. rewrite Hn, Hr. cbn [app].
  destruct (loop 0 addrs None [LinkActivate]) as [tr [le|r|]]; try reflexivity.
  destruct (lte_deactivate env); [|reflexivity].
  destruct le; reflexivity.
Qed.

Lemma fail_blocks_no_link i pre :
  filter is_link_deactivate (fail_blocks i pre) = [].
Proof.
  revert i. induction pre as [|a pre IH]; intros i; cbn; [reflexivity|].
  apply IH.
Qed.

Lemma fail_blocks_no_activate i pre :
  filter is_link_activate (fail_blocks i pre) = [].
Proof.
  revert i. induction pre as [|a pre IH]; intros i; cbn; [reflexivity|].
  apply IH.
Qed.

Lemma fail_blocks_before i pre :
  Forall (before_attempt (i + length pre)) (fail_blocks i pre).
Proof.
  revert i. induction pre as [|a pre IH]; intros i; cbn [fail_blocks]; [constructor|].
  cbn [length]. rewrite <- Nat.add_succ_comm.
  apply Forall_app; split.
  { unfold attempt_events.
    repeat (apply Forall_cons; [unfold before_attempt; cbn; lia|]). apply Forall_nil. }
  apply Forall_app; split; [|apply IH].
  apply Forall_cons; [unfold before_attempt; cbn; lia|]. apply Forall_nil.
Qed.

Lemma before_attempt_mono n m ev : n <= m -> before_attempt n ev -> before_attempt m ev.
Proof. unfold before_attempt. destruct (attempt_of ev); lia. Qed.

Lemma last_error_after_failing pre : forall i le,
  pre <> [] ->
  (forall j a, nth_error pre j = Some a -> fails_cleanly (i + j) a) ->
  exists e, sock_connect env (i + length pre - 1) (last pre (V4 0 0)) = Err e /\
            last_error_after i pre le = Some e.
Proof.
  induction pre as [|a pre IH]; intros i le Hne Hf; [congruence|].
  destruct (Hf 0 a eq_refl) as (_ & [e He] & _). rewrite Nat.add_0_r in He.
  destruct pre as [|b pre'].
  - exists e. cbn. rewrite Nat.add_1_r, Nat.sub_succ, Nat.sub_0_r, He. auto.
  - cbn [last_error_after]. rewrite He.
    destruct (IH (S i) (Some e)) as (e' & He' & Hl).
    + discriminate.
    + intros j c Hj. rewrite Nat.add_succ_comm. apply (Hf (S j) c Hj).
    + exists e'. split; [|exact Hl].
      replace (i + length (a :: b :: pre') - 1) with (S i + length (b :: pre') - 1)
        by (cbn; lia).
      exact He'.
Qed.

(** Splitting the candidates at attempt [k], with the hypotheses on the
    attempts before it restated on the prefix. *)
Lemma split_at_attempt addrs k ak :
  nth_error addrs k = Some ak ->
  (forall j a, j < k -> nth_error addrs j = Some a -> fails_cleanly j a) ->
  exists l1 l2, addrs = l1 ++ ak :: l2 /\ length l1 = k /\
    (forall j a, nth_error l1 j = Some a -> fails_cleanly (0 + j) a).
Proof.
  intros Hk Hf. destruct (nth_error_split addrs k Hk) as (l1 & l2 & -> & Hl).
  exists l1, l2. split; [reflexivity|split; [assumption|]].
  intros j a Hj. cbn [Nat.add]. apply Hf.
  - rewrite <- Hl. apply nth_error_Some; rewrite Hj; discriminate.
  - rewrite nth_error_app1; [assumption|]. apply nth_error_Some; rewrite Hj; discriminate.
Qed.

End ConnectProofs.

(** * Claims about [connect_with_cancellation] *)

Ltac trace_facts :=
  unfold link_deactivations, link_activations;
  repeat (rewrite ?filter_app, ?fail_blocks_no_link, ?fail_blocks_no_activate, ?length_app);
  cbn; try reflexivity.

(** C1 (amended): for a non-empty candidate list where candidate [k]'s
    handshake succeeds and every candidate before it fails its handshake
    (each failed socket being deactivated), connect deactivates the LTE link
    exactly once, attempts no candidate after [k], and returns [Ok] with the
    stream wrapping the socket created for candidate [k] when that link
    deactivation succeeds; when the link deactivation fails it returns that
    error instead. *)
Theorem connect_first_success_when_link_deactivates env token pv tags addrs k ak s :
  lte_new env = Ok tt -> to_socket_addrs env = Ok addrs ->
  nth_error addrs k = Some ak ->
  (forall j a, j < k -> nth_error addrs j = Some a -> fails_cleanly env token pv tags j a) ->
  reaches_handshake env token pv tags k ak s -> sock_connect env k ak = Ok tt ->
  let '(tr, out) := connect_with_cancellation env pv tags token in
  out = Returned (match lte_deactivate env with
                  | Ok _ => Ok (mkTlsStream s)
                  | Err d => Err d
                  end) /\
  link_deactivations tr = 1 /\
  Forall (before_attempt (S k)) tr.
Proof.
  intros Hn Hr Hk Hf Hs Hc.
  destruct (split_at_attempt env token pv tags addrs k ak Hk Hf) as (l1 & l2 & -> & Hl & Hf1).
  rewrite (connect_unfold env token pv tags _ Hn Hr).
  rewrite (loop_fail_prefix env token pv tags l1 0 (ak :: l2) None [LinkActivate] Hf1).
  cbn [Nat.add]. rewrite Hl.
  rewrite (loop_handshake_ok env token pv tags k ak l2 _ _ s Hs Hc).
  split; [reflexivity|split].
  - trace_facts.
  - apply Forall_cons; [exact I|].
    apply Forall_app; split.
    + eapply Forall_impl; [|apply (fail_blocks_before pv tags 0 l1)].
      intros ev. apply before_attempt_mono. lia.
    + unfold attempt_events.
      repeat (apply Forall_cons; [unfold before_attempt; cbn; lia|]). apply Forall_nil.
Qed.

(** C2 (amended): for a non-empty candidate list where every candidate fails
    its handshake and every failed socket is deactivated, connect deactivates
    the LTE link exactly once and returns the handshake error of the last
    candidate when that link deactivation succeeds, and the link
    deactivation's error when it fails. *)
Theorem connect_all_fail_when_link_deactivates env token pv tags addrs :
  lte_new env = Ok tt -> to_socket_addrs env = Ok addrs -> addrs <> [] ->
  (forall j a, nth_error addrs j = Some a -> fails_cleanly env token pv tags j a) ->
  let '(tr, out) := connect_with_cancellation env pv tags token in
  (exists e, sock_connect env (length addrs - 1) (last addrs (V4 0 0)) = Err e /\
             out = Returned (Err (match lte_deactivate env with
                                  | Ok _ => e
                                  | Err d => d
                                  end))) /\
  link_deactivations tr = 1.
Proof.
  intros Hn Hr Hne Hf.
  rewrite (connect_unfold env token pv tags _ Hn Hr).
  rewrite <- (app_nil_r addrs).
  rewrite (loop_fail_prefix env token pv tags addrs 0 [] None [LinkActivate] Hf).
  rewrite app_nil_r.
  destruct (last_error_after_failing env token pv tags addrs 0 None Hne Hf) as (e & He & Hl).
  rewrite Hl. cbn [connect_loop ret].
  split.
  - exists e. split; [exact He|]. destruct (lte_deactivate env); reflexivity.
  - trace_facts.
Qed.

(** C5: when the handshake of candidate [i] fails, its socket is deactivated
    right after the failed connect, before any event of a later candidate;
    if that deactivation fails, connect returns the deactivation error at
    once, and its body makes no further call (no later candidate is
    attempted). *)
Theorem connect_failed_socket_deactivated_first env token pv tags addrs i a s e :
  lte_new env = Ok tt -> to_socket_addrs env = Ok addrs ->
  nth_error addrs i = Some a ->
  (forall j b, j < i -> nth_error addrs j = Some b -> fails_cleanly env token pv tags j b) ->
  reaches_handshake env token pv tags i a s -> sock_connect env i a = Err e ->
  let '(tr, out) := connect_with_cancellation env pv tags token in
  exists pre post,
    tr = pre ++ [Connect i a; SocketDeactivate i] ++ post /\
    Forall (before_attempt (S i)) pre /\
    (forall d, sock_deactivate env i = Err d -> post = [] /\ out = Returned (Err d)).
Proof.
  intros Hn Hr Hi Hf Hs He.
  destruct (split_at_attempt env token pv tags addrs i a Hi Hf) as (l1 & l2 & -> & Hl & Hf1).
  rewrite (connect_unfold env token pv tags _ Hn Hr).
  rewrite (loop_fail_prefix env token pv tags l1 0 (a :: l2) None [LinkActivate] Hf1).
  cbn [Nat.add]. rewrite Hl.
  rewrite (loop_handshake_fails env token pv tags i a l2 _ _ s e Hs He). cbv zeta.
  set (pre := [LinkActivate] ++ fail_blocks pv tags 0 l1 ++
              [Create i (family_of a); SetOption i (TlsPeerVerify (as_integer pv));
               SetOption i (TlsSessionCache 0); SetOption i (TlsTagList tags)]).
  assert (Hpre : ([LinkActivate] ++ fail_blocks pv tags 0 l1) ++
                 attempt_events pv tags i a ++ [SocketDeactivate i] =
                 pre ++ [Connect i a; SocketDeactivate i]).
  { unfold pre, attempt_events. rewrite <- !app_assoc. reflexivity. }
  assert (Hbefore : Forall (before_attempt (S i)) pre).
  { unfold pre. apply Forall_cons; [exact I|]. apply Forall_app; split.
    - eapply Forall_impl; [|apply (fail_blocks_before pv tags 0 l1)].
      intros ev. apply before_attempt_mono. lia.
    - repeat (apply Forall_cons; [unfold before_attempt; cbn; lia|]). apply Forall_nil. }
  rewrite Hpre. clearbody pre.
  destruct (sock_deactivate env i) as [u|d] eqn:Ed.
  - destruct (extends_loop env token pv tags (S i) l2 (Some e)
                (pre ++ [Connect i a; SocketDeactivate i])) as [post Hpost].
    destruct (connect_loop env token pv tags (S i) l2 (Some e)
                (pre ++ [Connect i a; SocketDeactivate i])) as [tr' [le|r|]];
      cbn in Hpost; subst tr'; cbv beta iota.
    + exists pre, (post ++ [LinkDeactivate]). rewrite <- !app_assoc.
      split; [reflexivity|split; [exact Hbefore|intros d' Hd'; discriminate]].
    + exists pre, post. rewrite <- !app_assoc.
      split; [reflexivity|split; [exact Hbefore|intros d' Hd'; discriminate]].
    + exists pre, post. rewrite <- !app_assoc.
      split; [reflexivity|split; [exact Hbefore|intros d' Hd'; discriminate]].
  - cbv beta iota. exists pre, []. rewrite app_nil_r.
    split; [reflexivity|split; [exact Hbefore|]].
    intros d' Hd'. injection Hd' as <-. split; reflexivity.
Qed.

(** C6: if the token is cancelled when candidate [i] comes up, connect
    returns [OperationCancelled] with no call made since the check: no
    socket is created for candidate [i], no event of candidate [i] or later
    appears, and the LTE link was activated only once, before the loop. *)
Theorem connect_cancelled_before_attempt env token pv tags addrs i a :
  lte_new env = Ok tt -> to_socket_addrs env = Ok addrs ->
  nth_error addrs i = Some a ->
  (forall j b, j < i -> nth_error addrs j = Some b -> fails_cleanly env token pv tags j b) ->
  token i = true ->
  let '(tr, out) := connect_with_cancellation env pv tags token in
  out = Returned (Err OperationCancelled) /\
  tr = LinkActivate :: fail_blocks pv tags 0 (firstn i addrs) /\
  Forall (before_attempt i) tr /\
  link_activations tr = 1.
Proof.
  intros Hn Hr Hi Hf Ht.
  destruct (split_at_attempt env token pv tags addrs i a Hi Hf) as (l1 & l2 & -> & Hl & Hf1).
  rewrite (connect_unfold env token pv tags _ Hn Hr).
  rewrite (loop_fail_prefix env token pv tags l1 0 (a :: l2) None [LinkActivate] Hf1).
  cbn [Nat.add]. rewrite Hl.
  rewrite (loop_cancelled env token pv tags i a l2 _ _ Ht).
  assert (Hfirst : firstn i (l1 ++ a :: l2) = l1).
  { rewrite <- Hl, firstn_app, Nat.sub_diag, firstn_O, app_nil_r. apply firstn_all. }
  rewrite Hfirst.
  split; [reflexivity|split; [reflexivity|split]].
  - apply Forall_cons; [exact I|]. rewrite <- Hl at 1.
    apply (fail_blocks_before pv tags 0 l1).
  - trace_facts.
Qed.

(** C9 (amended): when resolution yields no candidate, connect (with any
    token, and so [connect] with the default one) attempts no candidate and
    deactivates the LTE link once; it then panics on unwrapping the absent
    last error if that deactivation succeeded, and returns the deactivation
    error if it failed. *)
Theorem connect_empty_candidates env token pv tags :
  lte_new env = Ok tt -> to_socket_addrs env = Ok [] ->
  connect_with_cancellation env pv tags token =
  ([LinkActivate; LinkDeactivate],
   match lte_deactivate env with Ok _ => Panicked | Err d => Returned (Err d) end).
Proof.
  intros Hn Hr. rewrite (connect_unfold env token pv tags _ Hn Hr). cbn.
  destruct (lte_deactivate env); reflexivity.
Qed.

(** C10: when resolving the address fails, [connect] and
    [connect_with_cancellation] panic on the [unwrap] of the resolution
    instead of returning an [Err].  The resolution runs after [LteLink::new()],
    so it is reached only once that activation succeeded. *)
Theorem connect_resolution_failure_panics env token pv tags :
  lte_new env = Ok tt -> to_socket_addrs env = Err tt ->
  connect_with_cancellation env pv tags token = ([LinkActivate], Panicked) /\
  connect env pv tags = ([LinkActivate], Panicked).
Proof.
  intros Hn Hr. unfold connect, connect_with_cancellation, run, connect_body.
  unfold bind, call, try_, unwrap. rewrite Hn, Hr. split; reflexivity.
Qed.

(** * Properties of the receive loops *)

Section ReceiveProofs.
Variable rr : RawReceive.

(** One call of [receive_with_cancellation]: one raw receive on a slice of
    [min(1024, buf.len())] bytes; on success the bytes it wrote start the
    buffer and are returned, on error the buffer is untouched. *)
Lemma receive_spec k buf :
  let m := Nat.min 1024 (length buf) in
  let '(calls, buf', out) := receive_with_cancellation rr k buf in
  length buf' = length buf /\
  ((exists d, calls = [(m, Ok d)] /\ length d <= m /\ out = Returned (Ok d) /\
              firstn (length d) buf' = d) \/
   (exists e, calls = [(m, Err e)] /\ out = Returned (Err e) /\ buf' = buf)).
Proof.
  cbv zeta. unfold receive_with_cancellation, recv_record, socket_receive.
  set (m := Nat.min 1024 (length buf)).
  assert (Hm : length (firstn m buf) = m).
  { rewrite length_firstn. unfold m. lia. }
  rewrite Hm.
  destruct (rr k m) as [d|e].
  - set (w := firstn m d).
    assert (Hw : length w <= m) by (unfold w; rewrite length_firstn; lia).
    assert (Hlen : length ((w ++ skipn (length w) (firstn m buf)) ++ skipn m buf)
                   = length buf).
    { rewrite !length_app, length_skipn, Hm, length_skipn. unfold m. lia. }
    assert (Hle : (length w <=? length ((w ++ skipn (length w) (firstn m buf)) ++ skipn m buf))
                  = true).
    { apply Nat.leb_le. rewrite Hlen. unfold m in Hw. lia. }
    rewrite Hle.
    assert (Hpre : forall l, firstn (length w) ((w ++ l)) = w).
    { intros l. rewrite firstn_app, Nat.sub_diag, firstn_O, app_nil_r. apply firstn_all. }
    split; [exact Hlen|left].
    exists w. rewrite <- app_assoc, !Hpre. auto.
  - split.
    + rewrite length_app, Hm, length_skipn. unfold m. lia.
    + right. exists e. split; [reflexivity|split; [reflexivity|apply firstn_skipn]].
Qed.

Lemma recv_bytes_app c1 c2 : recv_bytes (c1 ++ c2) = recv_bytes c1 ++ recv_bytes c2.
Proof.
  induction c1 as [|[n [d|e]] c1 IH]; cbn; [reflexivity| |exact IH].
  rewrite IH, app_assoc. reflexivity.
Qed.

Ltac exact_full_case :=
  split; [reflexivity|split; [intros ? ? H; discriminate H|split]];
  [ intros _; split; [assumption|symmetry; assumption]
  | split; [intros H; discriminate H|discriminate] ].

Lemma receive_exact_loop_spec fuel : forall k buf received calls,
  all_ok calls -> firstn received buf = recv_bytes calls ->
  length (recv_bytes calls) = received -> received <= length buf ->
  let '(calls', buf', r) := receive_exact_loop rr fuel k buf received calls in
  length buf' = length buf /\
  (forall e p, r = Some (Returned (Err (e, p))) ->
     exists oks len, calls' = oks ++ [(len, Err e)] /\ all_ok oks /\
       p = recv_bytes oks /\ length p < length buf /\ p = firstn (length p) buf') /\
  (r = Some (Returned (Ok tt)) -> all_ok calls' /\ buf' = recv_bytes calls') /\
  (r = None -> all_ok calls' /\ length (recv_bytes calls') < length buf) /\
  r <> Some Panicked.
Proof.
  induction fuel as [|fuel IH]; intros k buf received calls Hok Hpre Hlen Hle;
    cbn [receive_exact_loop].
  - destruct (Nat.ltb_spec received (length buf)) as [Hlt|Hge]; cbv beta iota.
    + split; [reflexivity|split; [intros ? ? H; discriminate H|split]].
      * intros H; discriminate H.
      * split; [intros _; split; [exact Hok|lia]|discriminate].
    + assert (Hfull : recv_bytes calls = buf).
      { rewrite <- Hpre. apply firstn_all2. lia. }
      exact_full_case.
  - destruct (Nat.ltb_spec received (length buf)) as [Hlt|Hge]; cbv beta iota.
    2:{ assert (Hfull : recv_bytes calls = buf).
        { rewrite <- Hpre. apply firstn_all2. lia. }
        exact_full_case. }
    generalize (receive_spec k (skipn received buf)).
    destruct (receive_with_cancellation rr k (skipn received buf)) as [[c rest'] out].
    cbv zeta. rewrite length_skipn.
    intros [Hrest [(d & -> & Hd & -> & Hfd) | (e & -> & -> & ->)]].
    + assert (Hl1 : length (firstn received buf) = received).
      { rewrite length_firstn. lia. }
      assert (Hlen' : length (firstn received buf ++ rest') = length buf).
      { rewrite length_app, Hl1, Hrest. lia. }
      rewrite <- Hlen'.
      apply IH.
      * apply Forall_app. split; [exact Hok|]. constructor; [exists d; reflexivity|constructor].
      * rewrite firstn_app, Hl1, firstn_all2 by lia.
        replace (received + length d - received) with (length d) by lia.
        rewrite Hfd, recv_bytes_app, Hpre. cbn. rewrite app_nil_r. reflexivity.
      * rewrite recv_bytes_app, length_app, Hlen. cbn. rewrite app_nil_r. reflexivity.
      * rewrite Hlen'. lia.
    + rewrite firstn_skipn.
      split; [reflexivity|split; [|split; [discriminate|split; discriminate]]].
      intros e' p Hr. injection Hr as <- <-.
      exists calls, (Nat.min 1024 (length buf - received)).
      assert (Hp : length (firstn received buf) = received) by (rewrite length_firstn; lia).
      split; [reflexivity|split; [exact Hok|split; [exact Hpre|split]]].
      * rewrite Hp. exact Hlt.
      * rewrite Hp. reflexivity.
Qed.

End ReceiveProofs.

(** C7: [receive] and [receive_with_cancellation] make exactly one raw
    receive, on a slice of [min(1024, buf.len())] bytes, and on success
    return the prefix of the buffer whose length is the count that raw
    receive reported (the bytes it wrote). *)
Theorem receive_single_bounded_call rr k buf :
  receive rr k buf = receive_with_cancellation rr k buf /\
  let '(calls, buf', out) := receive_with_cancellation rr k buf in
  (exists r, calls = [(Nat.min 1024 (length buf), r)]) /\
  (forall p, out = Returned (Ok p) ->
     exists d, calls = [(Nat.min 1024 (length buf), Ok d)] /\
               length d <= Nat.min 1024 (length buf) /\
               p = firstn (length d) buf' /\ length p = length d).
Proof.
  split; [reflexivity|].
  generalize (receive_spec rr k buf).
  destruct (receive_with_cancellation rr k buf) as [[calls buf'] out]. cbv zeta.
  intros [Hl [(d & -> & Hd & -> & Hfd) | (e & -> & -> & ->)]].
  - split; [eexists; reflexivity|].
    intros p Hp. injection Hp as <-. exists d. rewrite Hfd. auto.
  - split; [eexists; reflexivity|]. intros p Hp. discriminate Hp.
Qed.

(** C3: [receive_exact] / [receive_exact_with_cancellation] on a buffer [B],
    whatever the raw receives answer.  If a raw receive fails after [i]
    bytes in total were received, with [i < |B|], the error comes back with
    the prefix of the buffer of length [i], which holds exactly the bytes
    received, in order.  The call returns success only after the raw
    receives have supplied [|B|] bytes without error, with [B] holding them;
    while they have supplied fewer without error, it is still waiting.  It
    never panics. *)
Theorem receive_exact_partial_progress rr fuel buf :
  receive_exact rr fuel buf = receive_exact_with_cancellation rr fuel buf /\
  let '(calls, buf', r) := receive_exact_with_cancellation rr fuel buf in
  length buf' = length buf /\
  (forall e p, r = Some (Returned (Err (e, p))) ->
     exists oks len, calls = oks ++ [(len, Err e)] /\ all_ok oks /\
       p = recv_bytes oks /\ length p < length buf /\ p = firstn (length p) buf') /\
  (r = Some (Returned (Ok tt)) -> all_ok calls /\ buf' = recv_bytes calls) /\
  (r = None -> all_ok calls /\ length (recv_bytes calls) < length buf) /\
  (all_ok calls -> length (recv_bytes calls) = length buf ->
     r = Some (Returned (Ok tt))) /\
  r <> Some Panicked.
Proof.
  split; [reflexivity|].
  generalize (receive_exact_loop_spec rr fuel 0 buf 0 [] (Forall_nil _) eq_refl eq_refl
                (Nat.le_0_l _)).
  unfold receive_exact_with_cancellation.
  destruct (receive_exact_loop rr fuel 0 buf 0 []) as [[calls buf'] r].
  intros (Hl & Herr & Hok & Hnone & Hpanic).
  split; [exact Hl|split; [exact Herr|split; [exact Hok|split; [exact Hnone|split]]]].
  - intros Hall Htot.
    destruct r as [[[[]|[e p]]|]|].
    + reflexivity.
    + destruct (Herr e p eq_refl) as (oks & len & -> & _).
      apply Forall_app in Hall. destruct Hall as [_ Hlast].
      inversion Hlast as [|x xs [d Hd] _]. discriminate Hd.
    + contradiction.
    + destruct (Hnone eq_refl) as [_ Hlt]. lia.
  - exact Hpanic.
Qed.

(** * Properties of the write loop *)

Section WriteProofs.
Variable ww : RawWrite.

(** The transport accepts at most the bytes it is offered. *)
Hypothesis ww_bounded : forall k c n, ww k c = Ok n -> n <= length c.

Lemma accepted_app c1 c2 : accepted (c1 ++ c2) = accepted c1 + accepted c2.
Proof.
  induction c1 as [|[c [n|e]] c1 IH]; cbn; [reflexivity| |exact IH].
  rewrite IH. lia.
Qed.

Lemma chunked_snoc buf cs : forall off c r,
  all_written cs -> chunked buf off cs ->
  off + accepted cs < length buf ->
  c = firstn (Nat.min 1024 (length buf - (off + accepted cs))) (skipn (off + accepted cs) buf) ->
  chunked buf off (cs ++ [(c, r)]).
Proof.
  induction cs as [|[c0 r0] cs IH]; intros off c r Hall Hch Hlt Hc.
  - cbn in *. rewrite Nat.add_0_r in *. destruct r; auto.
  - inversion Hall as [|x xs [n Hn] Hall']; cbn in Hn; subst r0.
    cbn in Hch, Hlt, Hc |- *. destruct Hch as (Hoff & Hc0 & Hrest).
    split; [exact Hoff|split; [exact Hc0|]].
    apply IH; try assumption; rewrite <- Nat.add_assoc; assumption.
Qed.

Lemma chunked_bounded buf : forall cs off,
  chunked buf off cs -> Forall (fun c => length (fst c) <= 1024) cs.
Proof.
  induction cs as [|[c r] cs IH]; intros off Hch; constructor.
  - cbn [chunked fst] in Hch |- *. destruct Hch as (_ & -> & _). rewrite length_firstn. lia.
  - cbn in Hch. destruct Hch as (_ & _ & Hr). destruct r as [n|e].
    + exact (IH _ Hr).
    + subst cs. constructor.
Qed.

Lemma write_loop_spec fuel : forall k buf written calls,
  all_written calls -> chunked buf 0 calls -> accepted calls = written ->
  written <= length buf ->
  let '(calls', r) := write_loop ww fuel k buf written calls in
  chunked buf 0 calls' /\
  (r = Some (Ok tt) -> all_written calls' /\ accepted calls' = length buf) /\
  (forall e, r = Some (Err e) ->
     exists oks c, calls' = oks ++ [(c, Err e)] /\ all_written oks) /\
  (r = None -> all_written calls' /\ accepted calls' < length buf).
Proof.
  induction fuel as [|fuel IH]; intros k buf written calls Hall Hch Hacc Hle;
    cbn [write_loop].
  - destruct (Nat.ltb_spec written (length buf)); cbv beta iota.
    + split; [exact Hch|split; [discriminate|split; [discriminate|]]].
      intros _. split; [exact Hall|lia].
    + split; [exact Hch|split; [|split; [discriminate|discriminate]]].
      intros _. split; [exact Hall|lia].
  - destruct (Nat.ltb_spec written (length buf)) as [Hlt|Hge]; cbv beta iota zeta.
    2:{ split; [exact Hch|split; [|split; [discriminate|discriminate]]].
        intros _. split; [exact Hall|lia]. }
    set (chunk := firstn (Nat.min 1024 (length buf - written)) (skipn written buf)).
    assert (Hch' : forall r, chunked buf 0 (calls ++ [(chunk, r)])).
    { intros r. apply chunked_snoc; try assumption; cbn [Nat.add]; rewrite Hacc; [lia|reflexivity]. }
    destruct (ww k chunk) as [n|e] eqn:Hw.
    + assert (Hn : n <= length chunk) by (eapply ww_bounded; exact Hw).
      assert (Hlc : length chunk <= length buf - written).
      { unfold chunk. rewrite length_firstn, length_skipn. lia. }
      apply IH.
      * apply Forall_app. split; [exact Hall|]. constructor; [exists n; reflexivity|constructor].
      * apply Hch'.
      * rewrite accepted_app, Hacc. cbn. lia.
      * lia.
    + split; [apply Hch'|split; [discriminate|split; [|discriminate]]].
      intros e' He. injection He as <-. exists calls, chunk. auto.
Qed.

End WriteProofs.

(** C4: [write] / [write_with_cancellation] on a buffer [B], with a
    transport that accepts at most the bytes it is offered: every raw write
    is issued while bytes remain, on the next [min(1024, remaining)] bytes of
    [B] (so none exceeds 1024 bytes); the call succeeds only once the
    accepted bytes add up to [|B|], and on a raw write error it returns just
    that error (the result carries no count), with no raw write after it. *)
Theorem write_chunked_full_buffer ww fuel buf :
  (forall k c n, ww k c = Ok n -> n <= length c) ->
  write ww fuel buf = write_with_cancellation ww fuel buf /\
  let '(calls, r) := write_with_cancellation ww fuel buf in
  chunked buf 0 calls /\
  Forall (fun c => length (fst c) <= 1024) calls /\
  (r = Some (Ok tt) -> all_written calls /\ accepted calls = length buf) /\
  (forall e, r = Some (Err e) ->
     exists oks c, calls = oks ++ [(c, Err e)] /\ all_written oks) /\
  (r = None -> all_written calls /\ accepted calls < length buf).
Proof.
  intros Hb. split; [reflexivity|].
  generalize (write_loop_spec ww Hb fuel 0 buf 0 [] (Forall_nil _) I eq_refl (Nat.le_0_l _)).
  unfold write_with_cancellation.
  destruct (write_loop ww fuel 0 buf 0 []) as [calls r].
  intros (Hch & Hok & Herr & Hnone).
  split; [exact Hch|split; [exact (chunked_bounded buf calls 0 Hch)|auto]].
Qed.

(** * The borrowed split *)

(** C8: [split] cannot fail, records no call to any collaborator (the trace
    is unchanged), and both halves refer to the stream itself, so the socket
    they use and [as_raw_fd] are those of the stream. *)
Theorem split_keeps_stream {R} (s : TlsStream) (tr : list Event) :
  exists r w,
    @split R s tr = (tr, Next (r, w)) /\
    rstream r = s /\ wstream w = s /\
    read_socket r = inner s /\ write_socket w = inner s /\
    as_raw_fd (rstream r) = as_raw_fd s /\ as_raw_fd (wstream w) = as_raw_fd s.
Proof.
  exists (mkTlsReadStream s), (mkTlsWriteStream s).
  repeat split.
Qed.

(** * Concrete runs *)

Example retry_trace :
  connect_with_cancellation env_retry Enabled [7%Z] default_token =
  ([LinkActivate; Create 0 Ipv4; SetOption 0 (TlsPeerVerify 2);
    SetOption 0 (TlsSessionCache 0); SetOption 0 (TlsTagList [7%Z]);
    Connect 0 (V4 10 443); SocketDeactivate 0;
    Create 1 Ipv6; SetOption 1 (TlsPeerVerify 2);
    SetOption 1 (TlsSessionCache 0); SetOption 1 (TlsTagList [7%Z]);
    Connect 1 (V6 20 443); LinkDeactivate],
   Returned (Ok (mkTlsStream (mkSocket 4)))).
Proof. reflexivity. Qed.

Example write_two_chunks :
  map (fun c => length (fst c)) (fst (write ww_accept_all 10 (repeat Byte.x2a 2000)))
  = [1024; 976].
Proof. vm_compute. reflexivity. Qed.

Example receive_exact_reset_after_600 :
  match receive_exact (rr_trickle 300 2) 10 (repeat Byte.x00 1000) with
  | (_, _, Some (Returned (Err (e, p)))) => (e, length p, p)
  | _ => (OperationCancelled, 0, [])
  end = (NrfError 104, 600, repeat Byte.x2a 600).
Proof. vm_compute. reflexivity. Qed.

Example receive_caps_at_1024 :
  match receive (rr_trickle 5000 7) 0 (repeat Byte.x00 3000) with
  | (calls, _, Returned (Ok p)) => (map fst calls, length p)
  | _ => ([], 0)
  end = ([1024], 1024).
Proof. vm_compute. reflexivity. Qed.

(** * Witnesses and counterexamples *)

Ltac fails_cleanly_here :=
  unfold fails_cleanly, reaches_handshake;
  split; [eexists; repeat split | split; [eexists; reflexivity | reflexivity]].

(** [connect_first_success_when_link_deactivates] at the retry scenario: the
    second candidate's socket is returned. *)
Lemma connect_first_success_witness :
  let '(tr, out) := connect_with_cancellation env_retry Enabled [7%Z] default_token in
  out = Returned (Ok (mkTlsStream (mkSocket 4))) /\
  link_deactivations tr = 1 /\ Forall (before_attempt 2) tr.
Proof.
  apply (connect_first_success_when_link_deactivates env_retry default_token Enabled [7%Z]
           [V4 10 443; V6 20 443] 1 (V6 20 443) (mkSocket 4)); try reflexivity.
  - intros j a Hj Ha. destruct j as [|j]; [|lia]. injection Ha as <-.
    fails_cleanly_here.
  - repeat split.
Defined.

(** C1 as stated fails: the handshake succeeds, yet the failing LTE link
    deactivation makes connect return an error, not [Ok]. *)
Lemma connect_first_success_counterexample :
  lte_new env_link_fails = Ok tt /\
  to_socket_addrs env_link_fails = Ok [V4 10 443] /\
  reaches_handshake env_link_fails default_token Enabled [7%Z] 0 (V4 10 443) (mkSocket 3) /\
  sock_connect env_link_fails 0 (V4 10 443) = Ok tt /\
  snd (connect_with_cancellation env_link_fails Enabled [7%Z] default_token)
    = Returned (Err (NrfError 5)) /\
  (forall st, snd (connect_with_cancellation env_link_fails Enabled [7%Z] default_token)
              <> Returned (Ok st)).
Proof.
  split; [reflexivity|split; [reflexivity|split; [repeat split|split; [reflexivity|]]]].
  split; [reflexivity|]. intros st H. vm_compute in H. discriminate H.
Qed.

(** [connect_all_fail_when_link_deactivates] with two refused candidates:
    the second one's error is returned. *)
Lemma connect_all_fail_witness :
  let '(tr, out) := connect_with_cancellation
                      (env_all_fail [V4 10 443; V6 20 443] (Ok tt)) Enabled [7%Z] default_token in
  (exists e, sock_connect (env_all_fail [V4 10 443; V6 20 443] (Ok tt)) 1 (V6 20 443) = Err e /\
             out = Returned (Err e)) /\
  link_deactivations tr = 1.
Proof.
  apply (connect_all_fail_when_link_deactivates
           (env_all_fail [V4 10 443; V6 20 443] (Ok tt)) default_token Enabled [7%Z]
           [V4 10 443; V6 20 443]); try reflexivity.
  - discriminate.
  - intros j a Ha. destruct j as [|[|j]]; cbn in Ha.
    + injection Ha as <-. fails_cleanly_here.
    + injection Ha as <-. fails_cleanly_here.
    + destruct j; discriminate Ha.
Defined.

(** C2 as stated fails: the only candidate is refused with [NrfError 111],
    but the failing LTE link deactivation's error is returned instead. *)
Lemma connect_all_fail_counterexample :
  lte_new (env_all_fail [V4 10 443] (Err (NrfError 5))) = Ok tt /\
  fails_cleanly (env_all_fail [V4 10 443] (Err (NrfError 5))) default_token Enabled [7%Z]
    0 (V4 10 443) /\
  sock_connect (env_all_fail [V4 10 443] (Err (NrfError 5))) 0 (V4 10 443)
    = Err (NrfError 111) /\
  snd (connect_with_cancellation (env_all_fail [V4 10 443] (Err (NrfError 5)))
         Enabled [7%Z] default_token) = Returned (Err (NrfError 5)).
Proof.
  split; [reflexivity|split; [fails_cleanly_here|split; reflexivity]].
Qed.

(** [connect_failed_socket_deactivated_first] where the second refused
    candidate's socket fails to deactivate. *)
Lemma connect_failed_socket_deactivated_first_witness :
  let '(tr, out) := connect_with_cancellation env_deactivate_fails Enabled [7%Z] default_token in
  exists pre post,
    tr = pre ++ [Connect 1 (V6 20 443); SocketDeactivate 1] ++ post /\
    Forall (before_attempt 2) pre /\
    (forall d, sock_deactivate env_deactivate_fails 1 = Err d ->
               post = [] /\ out = Returned (Err d)).
Proof.
  apply (connect_failed_socket_deactivated_first env_deactivate_fails default_token
           Enabled [7%Z] [V4 10 443; V6 20 443] 1 (V6 20 443) (mkSocket 4) (NrfError 111));
    try reflexivity.
  - intros j a Hj Ha. destruct j as [|j]; [|lia]. injection Ha as <-.
    fails_cleanly_here.
  - repeat split.
Defined.

(** [connect_cancelled_before_attempt] with a token cancelled from the second
    attempt on. *)
Lemma connect_cancelled_before_attempt_witness :
  let '(tr, out) := connect_with_cancellation (env_all_fail [V4 10 443; V6 20 443] (Ok tt))
                      Enabled [7%Z] (cancelled_from 1) in
  out = Returned (Err OperationCancelled) /\
  tr = LinkActivate :: fail_blocks Enabled [7%Z] 0 (firstn 1 [V4 10 443; V6 20 443]) /\
  Forall (before_attempt 1) tr /\
  link_activations tr = 1.
Proof.
  apply (connect_cancelled_before_attempt (env_all_fail [V4 10 443; V6 20 443] (Ok tt))
           (cancelled_from 1) Enabled [7%Z] [V4 10 443; V6 20 443] 1 (V6 20 443));
    try reflexivity.
  intros j a Hj Ha. destruct j as [|j]; [|lia]. injection Ha as <-.
  fails_cleanly_here.
Defined.

(** [connect_empty_candidates] with a link that deactivates: a panic. *)
Lemma connect_empty_candidates_witness :
  connect_with_cancellation (env_all_fail [] (Ok tt)) Enabled [7%Z] default_token =
  ([LinkActivate; LinkDeactivate], Panicked).
Proof.
  apply (connect_empty_candidates (env_all_fail [] (Ok tt)) default_token Enabled [7%Z]);
    reflexivity.
Defined.

(** C9 as stated fails: with no candidate and a failing link deactivation,
    connect returns an [Err] normally, and no candidate was attempted. *)
Lemma connect_empty_candidates_counterexample :
  to_socket_addrs (env_all_fail [] (Err (NrfError 5))) = Ok [] /\
  connect_with_cancellation (env_all_fail [] (Err (NrfError 5))) Enabled [7%Z] default_token =
  ([LinkActivate; LinkDeactivate], Returned (Err (NrfError 5))).
Proof. split; reflexivity. Qed.

(** [connect_resolution_failure_panics] on an address that does not
    resolve. *)
Lemma connect_resolution_failure_panics_witness :
  connect_with_cancellation env_unresolvable Enabled [7%Z] default_token
    = ([LinkActivate], Panicked) /\
  connect env_unresolvable Enabled [7%Z] = ([LinkActivate], Panicked).
Proof.
  apply (connect_resolution_failure_panics env_unresolvable default_token Enabled [7%Z]);
    reflexivity.
Defined.

(** [write_chunked_full_buffer] on a 2000-byte buffer, written in two
    chunks. *)
Lemma write_chunked_full_buffer_witness :
  write ww_accept_all 10 (repeat Byte.x2a 2000)
    = write_with_cancellation ww_accept_all 10 (repeat Byte.x2a 2000) /\
  let '(calls, r) := write_with_cancellation ww_accept_all 10 (repeat Byte.x2a 2000) in
  chunked (repeat Byte.x2a 2000) 0 calls /\
  Forall (fun c => length (fst c) <= 1024) calls /\
  (r = Some (Ok tt) -> all_written calls /\ accepted calls = length (repeat Byte.x2a 2000)) /\
  (forall e, r = Some (Err e) ->
     exists oks c, calls = oks ++ [(c, Err e)] /\ all_written oks) /\
  (r = None -> all_written calls /\ accepted calls < length (repeat Byte.x2a 2000)).
Proof.
  apply (write_chunked_full_buffer ww_accept_all 10 (repeat Byte.x2a 2000)).
  intros k c n H. injection H as <-. apply le_n.
Defined.

(** * The call sequence of [connect_with_cancellation] *)

Section ConnectShape.
Variable env : Env.
Variable token : Token.
Variable pv : PeerVerification.
Variable tags : list Z.

Local Abbreviation loop := (connect_loop env token pv tags).

Lemma loop_shape addrs : forall i le tr,
  match loop i addrs le tr with
  | (tr', Next _) => exists t, tr' = tr ++ t /\ loop_trace pv tags i addrs true t
  | (tr', Return _) => exists t, tr' = tr ++ t /\ loop_trace pv tags i addrs false t
  | (_, Panic) => False
  end.
Proof.
  induction addrs as [|a rest IH]; intros i le tr; cbn [connect_loop].
  - exists []. rewrite app_nil_r. split; [reflexivity|constructor].
  - unfold bind at 1, try_ at 1, as_result. destruct (token i).
    { exists []. rewrite app_nil_r. split; [reflexivity|constructor]. }
    unfold bind, call, try_, early_return.
    destruct (create env i (family_of a)) as [s|e].
    2:{ exists (firstn 1 (attempt_events pv tags i a)).
        split; [reflexivity|constructor; lia]. }
    destruct (set_option env i (TlsPeerVerify (as_integer pv))) as [[]|e].
    2:{ exists (firstn 2 (attempt_events pv tags i a)).
        split; [rewrite <- app_assoc; reflexivity|constructor; lia]. }
    destruct (set_option env i (TlsSessionCache 0)) as [[]|e].
    2:{ exists (firstn 3 (attempt_events pv tags i a)).
        split; [rewrite <- !app_assoc; reflexivity|constructor; lia]. }
    destruct (set_option env i (TlsTagList tags)) as [[]|e].
    2:{ exists (firstn 4 (attempt_events pv tags i a)).
        split; [rewrite <- !app_assoc; reflexivity|constructor; lia]. }
    destruct (sock_connect env i a) as [[]|e].
    + destruct (lte_deactivate env);
        (exists (attempt_events pv tags i a ++ [LinkDeactivate]);
         split; [rewrite <- !app_assoc; reflexivity|constructor]).
    + destruct (sock_deactivate env i) as [[]|d].
      2:{ exists (attempt_events pv tags i a ++ [SocketDeactivate i]).
          split; [rewrite <- !app_assoc; reflexivity|constructor]. }
      match goal with |- context [loop (S i) rest (Some e) ?t0] =>
        specialize (IH (S i) (Some e) t0);
        destruct (loop (S i) rest (Some e) t0) as [tr' [x|x|]] end; [| |exact IH];
        destruct IH as (t & -> & Ht);
        (exists (attempt_events pv tags i a ++ [SocketDeactivate i] ++ t);
         split; [rewrite <- !app_assoc; reflexivity|constructor; exact Ht]).
Qed.

Lemma loop_trace_no_activate i addrs fin t :
  loop_trace pv tags i addrs fin t -> filter is_link_activate t = [].
Proof.
  induction 1 as [| | i a rest k Hk | | | i a rest fin t _ IH]; try reflexivity.
  - destruct k as [|[|[|[|[|k]]]]]; try lia; reflexivity.
  - cbn. exact IH.
Qed.

Lemma loop_trace_deactivations i addrs fin t :
  loop_trace pv tags i addrs fin t ->
  link_deactivations t + (if fin then 1 else 0) <= 1.
Proof.
  unfold link_deactivations.
  induction 1 as [| | i a rest k Hk | | | i a rest fin t _ IH]; cbn; try lia.
  destruct k as [|[|[|[|[|k]]]]]; cbn; lia.
Qed.

Lemma connects_app t1 t2 : connects (t1 ++ t2) = connects t1 ++ connects t2.
Proof.
  induction t1 as [|[] t1 IH]; cbn; rewrite ?IH; reflexivity.
Qed.

Lemma loop_trace_connects i addrs fin t :
  loop_trace pv tags i addrs fin t -> exists n, connects t = firstn n (numbered i addrs).
Proof.
  induction 1 as [| | i a rest k Hk | | | i a rest fin t _ [n IH]].
  - exists 0. reflexivity.
  - exists 0. reflexivity.
  - exists 0. destruct k as [|[|[|[|[|k]]]]]; try lia; reflexivity.
  - exists 1. reflexivity.
  - exists 1. reflexivity.
  - exists (S n). rewrite !connects_app, IH. reflexivity.
Qed.



Lemma loop_value addrs : forall i le tr,
  match snd (loop i addrs le tr) with
  | Next le' =>
      (addrs = [] /\ le' = le) \/
      (exists j a e, le' = Some e /\ nth_error addrs j = Some a /\
                     sock_connect env (i + j) a = Err e)
  | Return (Ok st) =>
      exists j a, nth_error addrs j = Some a /\
        reaches_handshake env token pv tags (i + j) a (inner st) /\
        sock_connect env (i + j) a = Ok tt /\ lte_deactivate env = Ok tt
  | Return (Err e) => error_source env token e
  | Panic => False
  end.
Proof.
  induction addrs as [|a rest IH]; intros i le tr; cbn [connect_loop].
  - left. split; reflexivity.
  - unfold bind at 1, try_ at 1, as_result. destruct (token i) eqn:Ht.
    { left. split; [reflexivity|]. exists i. exact Ht. }
    unfold bind, call, try_, early_return.
    destruct (create env i (family_of a)) as [s|e] eqn:Hc.
    2:{ cbn. right; right; right; left. eauto. }
    destruct (set_option env i (TlsPeerVerify (as_integer pv))) as [[]|e] eqn:Ho1.
    2:{ cbn. right; right; right; right; left. eauto. }
    destruct (set_option env i (TlsSessionCache 0)) as [[]|e] eqn:Ho2.
    2:{ cbn. right; right; right; right; left. eauto. }
    destruct (set_option env i (TlsTagList tags)) as [[]|e] eqn:Ho3.
    2:{ cbn. right; right; right; right; left. eauto. }
    destruct (sock_connect env i a) as [[]|e] eqn:Hk.
    + destruct (lte_deactivate env) as [[]|d] eqn:Hd; cbn.
      * exists 0, a. rewrite Nat.add_0_r.
        repeat split; assumption.
      * right; right; left. exact Hd.
    + destruct (sock_deactivate env i) as [[]|d] eqn:Hd.
      2:{ cbn. right; right; right; right; right; right. eauto. }
      match goal with |- context [loop (S i) rest (Some e) ?t0] =>
        specialize (IH (S i) (Some e) t0);
        destruct (loop (S i) rest (Some e) t0) as [tr' x] end.
      cbn [snd] in IH |- *.
      destruct x as [le'|[st|e']|]; try exact IH.
      * right. destruct IH as [(-> & ->) | (j & b & e' & -> & Hj & Hb)].
        -- exists 0, a, e. rewrite Nat.add_0_r. auto.
        -- exists (S j), b, e'. rewrite Nat.add_succ_r. auto.
      * destruct IH as (j & b & Hj & Hs & Hb & Hl).
        exists (S j), b. rewrite Nat.add_succ_r. auto.
Qed.

Lemma connect_shape tr out :
  connect_with_cancellation env pv tags token = (tr, out) ->
  tr = [LinkActivate] \/
  exists addrs fin t, to_socket_addrs env = Ok addrs /\ lte_new env = Ok tt /\
    loop_trace pv tags 0 addrs fin t /\
    tr = LinkActivate :: t ++ (if fin then [LinkDeactivate] else []).
Proof.
  intros Hc.
  destruct (lte_new env) as [[]|e] eqn:Hn.
  2:{ left. revert Hc. unfold connect_with_cancellation, run, connect_body, bind, call, try_.
      rewrite Hn. intros Hc. inversion Hc. reflexivity. }
  destruct (to_socket_addrs env) as [addrs|[]] eqn:Hr.
  2:{ left. revert Hc. unfold connect_with_cancellation, run, connect_body, bind, call, try_, unwrap.
      rewrite Hn, Hr. intros Hc. inversion Hc. reflexivity. }
  rewrite (connect_unfold env token pv tags addrs Hn Hr) in Hc.
  generalize (loop_shape addrs 0 None [LinkActivate]).
  destruct (loop 0 addrs None [LinkActivate]) as [tr' [le|r|]]; [| |contradiction];
    intros (t & -> & Ht); right; exists addrs.
  - exists true, t. inversion Hc. auto.
  - exists false, t. inversion Hc. rewrite app_nil_r. auto.
Qed.

Lemma connect_no_link e :
  lte_new env = Err e ->
  connect_with_cancellation env pv tags token = ([LinkActivate], Returned (Err e)).
Proof.
  intros Hn. unfold connect_with_cancellation, run, connect_body, bind, call, try_.
  rewrite Hn. reflexivity.
Qed.

Lemma connect_unresolved :
  lte_new env = Ok tt -> to_socket_addrs env = Err tt ->
  connect_with_cancellation env pv tags token = ([LinkActivate], Panicked).
Proof.
  intros Hn Hr. unfold connect_with_cancellation, run, connect_body, bind, call, try_, unwrap.
  rewrite Hn, Hr. reflexivity.
Qed.

End ConnectShape.

(** Link calls: in every run, whatever the collaborators answer and whatever
    the token, connect calls [LteLink::new] exactly once, as its very first
    call, and [lte_link.deactivate] at most once. *)
Theorem connect_link_calls env pv tags token :
  let tr := fst (connect_with_cancellation env pv tags token) in
  hd_error tr = Some LinkActivate /\ link_activations tr = 1 /\ link_deactivations tr <= 1.
Proof.
  cbv zeta. destruct (connect_with_cancellation env pv tags token) as [tr out] eqn:Hc.
  cbn [fst].
  destruct (connect_shape env token pv tags tr out Hc)
    as [-> | (addrs & fin & t & _ & _ & Ht & ->)].
  - repeat split. cbn. lia.
  - split; [reflexivity|].
    pose proof (loop_trace_no_activate pv tags 0 addrs fin t Ht) as Ha.
    pose proof (loop_trace_deactivations pv tags 0 addrs fin t Ht) as Hd.
    unfold link_activations, link_deactivations in *.
    cbn [filter is_link_activate is_link_deactivate].
    rewrite !filter_app, Ha, length_app.
    destruct fin; cbn; lia.
Qed.

(** Handshake order: the handshakes connect makes are, in order, those of the
    first [n] resolved candidates, the k-th one on the k-th candidate; no
    candidate is tried twice, skipped or tried out of order, and none is
    tried when resolution fails. *)
Theorem connect_handshakes_in_order env pv tags token :
  exists n, connects (fst (connect_with_cancellation env pv tags token)) =
    firstn n (numbered 0 (match to_socket_addrs env with Ok addrs => addrs | Err _ => [] end)).
Proof.
  destruct (connect_with_cancellation env pv tags token) as [tr out] eqn:Hc.
  cbn [fst].
  destruct (connect_shape env token pv tags tr out Hc)
    as [-> | (addrs & fin & t & Hr & _ & Ht & ->)].
  - exists 0. reflexivity.
  - rewrite Hr. destruct (loop_trace_connects pv tags 0 addrs fin t Ht) as [n Hn].
    exists n. cbn [connects]. rewrite connects_app, Hn.
    destruct fin; cbn; apply app_nil_r.
Qed.

(** Success provenance: when connect returns a stream, its socket is the one
    created for some resolved candidate [i] that passed the cancellation
    check and all three option settings, the handshake with that candidate
    succeeded, and the LTE link was deactivated successfully. *)
Theorem connect_ok_provenance env pv tags token st :
  snd (connect_with_cancellation env pv tags token) = Returned (Ok st) ->
  exists addrs i a, to_socket_addrs env = Ok addrs /\ nth_error addrs i = Some a /\
    reaches_handshake env token pv tags i a (inner st) /\
    sock_connect env i a = Ok tt /\ lte_deactivate env = Ok tt.
Proof.
  intros H.
  destruct (lte_new env) as [[]|e] eqn:Hn.
  2:{ rewrite (connect_no_link env token pv tags e Hn) in H. discriminate. }
  destruct (to_socket_addrs env) as [addrs|[]] eqn:Hr.
  2:{ rewrite (connect_unresolved env token pv tags Hn Hr) in H. discriminate. }
  rewrite (connect_unfold env token pv tags addrs Hn Hr) in H.
  pose proof (loop_value env token pv tags addrs 0 None [LinkActivate]) as Hv.
  destruct (connect_loop env token pv tags 0 addrs None [LinkActivate]) as [tr' [le|r|]];
    cbn [snd] in H, Hv.
  - destruct (lte_deactivate env); [destruct le|]; discriminate.
  - injection H as ->. destruct Hv as (i & a & Hi & Hs & Hk & Hl).
    exists addrs, i, a. auto.
  - discriminate.
Qed.

(** Panic cause: connect panics only when the link was activated and then
    either resolution failed, or resolution gave no candidate at all and the
    link deactivation succeeded; a non-empty candidate list never leads to
    a panic. *)
Theorem connect_panic_cause env pv tags token :
  snd (connect_with_cancellation env pv tags token) = Panicked ->
  lte_new env = Ok tt /\
  (to_socket_addrs env = Err tt \/ (to_socket_addrs env = Ok [] /\ lte_deactivate env = Ok tt)).
Proof.
  intros H.
  destruct (lte_new env) as [[]|e] eqn:Hn.
  2:{ rewrite (connect_no_link env token pv tags e Hn) in H. discriminate. }
  split; [reflexivity|].
  destruct (to_socket_addrs env) as [addrs|[]] eqn:Hr; [|left; reflexivity].
  rewrite (connect_unfold env token pv tags addrs Hn Hr) in H.
  pose proof (loop_value env token pv tags addrs 0 None [LinkActivate]) as Hv.
  destruct (connect_loop env token pv tags 0 addrs None [LinkActivate]) as [tr' [le|r|]];
    cbn [snd] in H, Hv; [|discriminate|contradiction].
  destruct (lte_deactivate env) as [[]|d]; [|discriminate].
  destruct le; [discriminate|].
  destruct Hv as [(-> & _) | (j & a & e & [=] & _)].
  right. auto.
Qed.

(** Error source: connect never makes up an error; every error it returns is
    [OperationCancelled] from a cancelled token, or an error answered by one
    of the collaborators ([LteLink::new], [lte_link.deactivate],
    [Socket::create], [set_option], [connect], [socket.deactivate]). *)
Theorem connect_error_source env pv tags token e :
  snd (connect_with_cancellation env pv tags token) = Returned (Err e) ->
  error_source env token e.
Proof.
  intros H.
  destruct (lte_new env) as [[]|e'] eqn:Hn.
  2:{ rewrite (connect_no_link env token pv tags e' Hn) in H. injection H as ->.
      right; left. exact Hn. }
  destruct (to_socket_addrs env) as [addrs|[]] eqn:Hr.
  2:{ rewrite (connect_unresolved env token pv tags Hn Hr) in H. discriminate. }
  rewrite (connect_unfold env token pv tags addrs Hn Hr) in H.
  pose proof (loop_value env token pv tags addrs 0 None [LinkActivate]) as Hv.
  destruct (connect_loop env token pv tags 0 addrs None [LinkActivate]) as [tr' [le|r|]];
    cbn [snd] in H, Hv; [|injection H as ->; exact Hv|discriminate].
  destruct (lte_deactivate env) as [[]|d] eqn:Hd.
  - destruct le as [e'|]; [|discriminate]. injection H as ->.
    destruct Hv as [(_ & [=]) | (j & a & e'' & [= ->] & _ & Hk)].
    do 5 right; left. eauto.
  - injection H as ->. right; right; left. exact Hd.
Qed.


(** Link activation failure: when [LteLink::new] fails, connect returns its
    error after that single call, for every token and every address; in
    particular it neither resolves the address nor panics on an unresolvable
    one. *)
Theorem connect_link_activation_fails env pv tags token e :
  lte_new env = Err e ->
  connect_with_cancellation env pv tags token = ([LinkActivate], Returned (Err e)).
Proof.
  intros Hn. unfold connect_with_cancellation, run, connect_body, bind, call, try_.
  rewrite Hn. reflexivity.
Qed.

(** * More on the receive and write loops *)

Section LoopFacts.

Lemma recv_sized_snoc len cs : forall off n r,
  all_ok cs -> recv_sized len off cs ->
  off + length (recv_bytes cs) < len ->
  n = Nat.min 1024 (len - (off + length (recv_bytes cs))) ->
  recv_sized len off (cs ++ [(n, r)]).
Proof.
  induction cs as [|[n0 r0] cs IH]; intros off n r Hall Hs Hlt Hn.
  - cbn in *. rewrite Nat.add_0_r in *. destruct r; auto.
  - inversion Hall as [|x xs [d Hd] Hall']; cbn in Hd; subst r0.
    cbn [recv_sized recv_bytes app] in Hs, Hlt, Hn |- *.
    destruct Hs as (Hoff & Hn0 & Hrest).
    rewrite length_app in Hlt, Hn.
    split; [exact Hoff|split; [exact Hn0|]].
    apply IH; try assumption; [lia|]. rewrite Hn. f_equal. lia.
Qed.

Lemma receive_exact_loop_sized rr fuel : forall k buf received calls,
  all_ok calls -> length (recv_bytes calls) = received -> received <= length buf ->
  recv_sized (length buf) 0 calls ->
  let '(calls', _, _) := receive_exact_loop rr fuel k buf received calls in
  recv_sized (length buf) 0 calls'.
Proof.
  induction fuel as [|fuel IH]; intros k buf received calls Hok Hlen Hle Hs;
    cbn [receive_exact_loop].
  - destruct (received <? length buf); exact Hs.
  - destruct (Nat.ltb_spec received (length buf)) as [Hlt|Hge]; cbv beta iota; [|exact Hs].
    generalize (receive_spec rr k (skipn received buf)).
    destruct (receive_with_cancellation rr k (skipn received buf)) as [[c rest'] out].
    cbv zeta. rewrite length_skipn.
    intros [Hrest [(d & -> & Hd & -> & Hfd) | (e & -> & -> & ->)]].
    + assert (Hlen' : length (firstn received buf ++ rest') = length buf).
      { rewrite length_app, length_firstn, Hrest. lia. }
      generalize (IH (S k) (firstn received buf ++ rest') (received + length d)
                    (calls ++ [(Nat.min 1024 (length buf - received), Ok d)])).
      rewrite Hlen'. intros H. apply H.
      * apply Forall_app. split; [exact Hok|]. constructor; [exists d; reflexivity|constructor].
      * rewrite recv_bytes_app, length_app, Hlen. cbn. rewrite app_nil_r. reflexivity.
      * lia.
      * apply recv_sized_snoc; try assumption; rewrite Hlen; [lia|reflexivity].
    + apply recv_sized_snoc; try assumption; rewrite Hlen; [lia|reflexivity].
Qed.

Lemma receive_silent rr (Hs : forall k n, rr k n = Ok []) k buf :
  receive_with_cancellation rr k buf =
  ([(Nat.min 1024 (length buf), Ok [])], buf, Returned (Ok [])).
Proof.
  unfold receive_with_cancellation, recv_record, socket_receive.
  rewrite Hs, firstn_nil. cbn [length skipn app firstn].
  rewrite firstn_skipn, length_firstn.
  replace (Nat.min (Nat.min 1024 (length buf)) (length buf))
    with (Nat.min 1024 (length buf)) by lia.
  reflexivity.
Qed.

Lemma receive_exact_silent_loop rr (Hs : forall k n, rr k n = Ok []) buf :
  buf <> [] -> forall fuel k calls,
  receive_exact_loop rr fuel k buf 0 calls =
  (calls ++ repeat (Nat.min 1024 (length buf), Ok []) fuel, buf, None).
Proof.
  intros Hne. assert (Hl : (0 <? length buf) = true).
  { apply Nat.ltb_lt. destruct buf; [congruence|cbn; lia]. }
  induction fuel as [|fuel IH]; intros k calls; cbn [receive_exact_loop]; rewrite Hl.
  - rewrite app_nil_r. reflexivity.
  - rewrite (receive_silent rr Hs). cbn [skipn firstn app length Nat.add].
    rewrite IH, <- app_assoc. reflexivity.
Qed.

Lemma write_stalled_loop ww (Hs : forall k c, ww k c = Ok 0) buf :
  buf <> [] -> forall fuel k calls,
  write_loop ww fuel k buf 0 calls =
  (calls ++ repeat (firstn (Nat.min 1024 (length buf)) buf, Ok 0) fuel, None).
Proof.
  intros Hne. assert (Hl : (0 <? length buf) = true).
  { apply Nat.ltb_lt. destruct buf; [congruence|cbn; lia]. }
  induction fuel as [|fuel IH]; intros k calls; cbn [write_loop]; rewrite Hl.
  - rewrite app_nil_r. reflexivity.
  - rewrite Nat.sub_0_r, Hs. cbn [skipn Nat.add].
    rewrite IH, <- app_assoc. reflexivity.
Qed.

Lemma ceil_step x : 0 < x ->
  (x + 1023) / 1024 = S ((x - Nat.min 1024 x + 1023) / 1024).
Proof.
  intros Hx. destruct (Nat.le_gt_cases x 1024) as [Hs|Hb].
  - rewrite Nat.min_r by exact Hs. rewrite Nat.sub_diag. cbn [Nat.add].
    replace (1023 / 1024) with 0 by reflexivity.
    symmetry. apply (Nat.div_unique _ _ _ (x + 1023 - 1024)); lia.
  - rewrite Nat.min_l by lia.
    replace (x + 1023) with ((x - 1024 + 1023) + 1 * 1024) by lia.
    rewrite Nat.div_add by lia. lia.
Qed.

Lemma write_whole_loop ww (Hw : forall k c, ww k c = Ok (length c)) buf :
  forall fuel k w calls,
  w <= length buf -> (length buf - w + 1023) / 1024 <= fuel ->
  exists new, write_loop ww fuel k buf w calls = (calls ++ new, Some (Ok tt)) /\
    length new = (length buf - w + 1023) / 1024 /\ concat (map fst new) = skipn w buf.
Proof.
  induction fuel as [|fuel IH]; intros k w calls Hle Hf.
  - cbn [write_loop]. destruct (Nat.ltb_spec w (length buf)) as [Hlt|Hge].
    + rewrite (ceil_step (length buf - w)) in Hf by lia. lia.
    + exists []. rewrite app_nil_r, skipn_all2 by lia.
      replace (length buf - w) with 0 by lia. auto.
  - cbn [write_loop]. destruct (Nat.ltb_spec w (length buf)) as [Hlt|Hge].
    + rewrite Hw.
      set (m := Nat.min 1024 (length buf - w)).
      assert (Hm : length (firstn m (skipn w buf)) = m).
      { rewrite length_firstn, length_skipn. unfold m. lia. }
      rewrite Hm.
      rewrite (ceil_step (length buf - w)) in Hf |- * by lia. fold m in Hf |- *.
      destruct (IH (S k) (w + m) (calls ++ [(firstn m (skipn w buf), Ok m)]))
        as (new & Hrun & Hlen & Hcat).
      { unfold m. lia. }
      { replace (length buf - (w + m)) with (length buf - w - m) by lia. lia. }
      exists ((firstn m (skipn w buf), Ok m) :: new).
      rewrite Hrun, <- app_assoc. split; [reflexivity|split].
      * cbn [length]. rewrite Hlen. f_equal. f_equal. f_equal. lia.
      * cbn [map concat fst]. rewrite Hcat, Nat.add_comm, <- skipn_skipn.
        apply firstn_skipn.
    + exists []. rewrite app_nil_r, skipn_all2 by lia.
      replace (length buf - w) with 0 by lia. auto.
Qed.

Lemma receive_fills rr (Hf : forall k n, exists d, rr k n = Ok d /\ n <= length d) k buf :
  let m := Nat.min 1024 (length buf) in
  let '(calls, buf', out) := receive_with_cancellation rr k buf in
  length buf' = length buf /\
  exists d, calls = [(m, Ok d)] /\ out = Returned (Ok d) /\ length d = m.
Proof.
  cbv zeta. unfold receive_with_cancellation, recv_record, socket_receive.
  set (m := Nat.min 1024 (length buf)).
  assert (Hm : length (firstn m buf) = m) by (rewrite length_firstn; unfold m; lia).
  rewrite Hm.
  destruct (Hf k m) as (d & Hd & Hl). rewrite Hd.
  set (w := firstn m d).
  assert (Hw : length w = m) by (unfold w; rewrite length_firstn; lia).
  rewrite Hw, (skipn_all2 (firstn m buf)) by lia. rewrite app_nil_r.
  cbv beta iota zeta.
  assert (Hb : length (w ++ skipn m buf) = length buf).
  { rewrite length_app, length_skipn, Hw. unfold m. lia. }
  assert (Hfw : firstn m (w ++ skipn m buf) = w).
  { rewrite firstn_app, Hw, Nat.sub_diag, firstn_O, app_nil_r.
    apply firstn_all2. lia. }
  destruct (Nat.leb_spec m (length (w ++ skipn m buf))) as [_|Hc]; [|lia].
  split; [exact Hb|]. exists w. rewrite Hfw.
  assert (Hfw' : firstn m w = w) by (apply firstn_all2; lia).
  rewrite Hfw'. auto.
Qed.

Lemma receive_exact_fill_loop rr (Hf : forall k n, exists d, rr k n = Ok d /\ n <= length d) :
  forall fuel k buf received calls,
  received <= length buf -> (length buf - received + 1023) / 1024 <= fuel ->
  exists new buf', receive_exact_loop rr fuel k buf received calls =
    (calls ++ new, buf', Some (Returned (Ok tt))) /\
    length new = (length buf - received + 1023) / 1024.
Proof.
  induction fuel as [|fuel IH]; intros k buf received calls Hle Hfu;
    cbn [receive_exact_loop].
  - destruct (Nat.ltb_spec received (length buf)) as [Hlt|Hge].
    + rewrite (ceil_step (length buf - received)) in Hfu by lia. lia.
    + exists [], buf. rewrite app_nil_r. replace (length buf - received) with 0 by lia. auto.
  - destruct (Nat.ltb_spec received (length buf)) as [Hlt|Hge]; cbv beta iota.
    2:{ exists [], buf. rewrite app_nil_r. replace (length buf - received) with 0 by lia. auto. }
    generalize (receive_fills rr Hf k (skipn received buf)).
    destruct (receive_with_cancellation rr k (skipn received buf)) as [[c rest'] out].
    cbv zeta. rewrite length_skipn.
    intros [Hrest (d & -> & -> & Hd)].
    set (m := Nat.min 1024 (length buf - received)) in *.
    assert (Hlen' : length (firstn received buf ++ rest') = length buf).
    { rewrite length_app, length_firstn, Hrest. lia. }
    rewrite (ceil_step (length buf - received)) in Hfu |- * by lia. fold m in Hfu |- *.
    destruct (IH (S k) (firstn received buf ++ rest') (received + length d)
                (calls ++ [(m, Ok d)])) as (new & buf' & Hrun & Hn).
    { rewrite Hlen'. unfold m in Hd. lia. }
    { rewrite Hlen'.
      replace (length buf - (received + length d)) with (length buf - received - m) by lia.
      lia. }
    rewrite Hlen' in Hn.
    exists ((m, Ok d) :: new), buf'. rewrite Hrun, <- app_assoc.
    split; [reflexivity|]. cbn [length]. rewrite Hn. f_equal. f_equal. f_equal. lia.
Qed.

End LoopFacts.


(** Slice sizes of [receive_exact]: each raw receive is made while bytes are
    missing, on a slice of [min(1024, missing)] bytes, and nothing follows
    an error. *)
Theorem receive_exact_slice_sizes rr fuel buf :
  let '(calls, _, _) := receive_exact rr fuel buf in
  recv_sized (length buf) 0 calls.
Proof.
  exact (receive_exact_loop_sized rr fuel 0 buf 0 [] (Forall_nil _) eq_refl
           (Nat.le_0_l _) I).
Qed.

(** Completion of [receive_exact]: when every raw receive fills the slice it
    is given, [receive_exact] returns [Ok] after exactly
    [ceil(buf.len() / 1024)] raw receives. *)
Theorem receive_exact_fills_in_ceil_calls rr fuel buf :
  (forall k n, exists d, rr k n = Ok d /\ n <= length d) ->
  (length buf + 1023) / 1024 <= fuel ->
  let '(calls, _, r) := receive_exact rr fuel buf in
  r = Some (Returned (Ok tt)) /\ length calls = (length buf + 1023) / 1024.
Proof.
  intros Hf Hfu.
  destruct (receive_exact_fill_loop rr Hf fuel 0 buf 0 [] (Nat.le_0_l _))
    as (new & buf' & Hrun & Hn); rewrite Nat.sub_0_r in *; [exact Hfu|].
  unfold receive_exact, receive_exact_with_cancellation. rewrite Hrun. auto.
Qed.

(** No progress in [receive_exact]: when the raw receive keeps answering
    zero bytes, [receive_exact] on a non-empty buffer never returns; it
    repeats the same raw receive on [min(1024, buf.len())] bytes and leaves
    the buffer as it was. *)
Theorem receive_exact_waits_without_progress rr fuel buf :
  (forall k n, rr k n = Ok []) -> buf <> [] ->
  receive_exact rr fuel buf =
  (repeat (Nat.min 1024 (length buf), Ok []) fuel, buf, None).
Proof.
  intros Hs Hne. unfold receive_exact, receive_exact_with_cancellation.
  rewrite (receive_exact_silent_loop rr Hs buf Hne). reflexivity.
Qed.

(** Completion of [write]: when every raw write accepts its whole chunk,
    [write] returns [Ok] after exactly [ceil(buf.len() / 1024)] raw writes,
    and the chunks put end to end are the buffer. *)
Theorem write_whole_chunks_in_ceil_calls ww fuel buf :
  (forall k c, ww k c = Ok (length c)) ->
  (length buf + 1023) / 1024 <= fuel ->
  let '(calls, r) := write ww fuel buf in
  r = Some (Ok tt) /\ length calls = (length buf + 1023) / 1024 /\
  concat (map fst calls) = buf.
Proof.
  intros Hw Hfu.
  destruct (write_whole_loop ww Hw buf fuel 0 0 [] (Nat.le_0_l _))
    as (new & Hrun & Hn & Hcat); rewrite Nat.sub_0_r in *; [exact Hfu|].
  unfold write, write_with_cancellation. rewrite Hrun. auto.
Qed.

(** No progress in [write]: when the raw write keeps accepting zero bytes,
    [write] on a non-empty buffer never returns; it repeats the write of the
    same first chunk of [min(1024, buf.len())] bytes. *)
Theorem write_waits_without_progress ww fuel buf :
  (forall k c, ww k c = Ok 0) -> buf <> [] ->
  write ww fuel buf =
  (repeat (firstn (Nat.min 1024 (length buf)) buf, Ok 0) fuel, None).
Proof.
  intros Hs Hne. unfold write, write_with_cancellation.
  rewrite (write_stalled_loop ww Hs buf Hne). reflexivity.
Qed.

(** Empty buffers: [receive_exact] and [write] on an empty buffer return
    [Ok] at once, without any raw receive or raw write, whatever the
    transport. *)
Theorem empty_buffer_makes_no_call rr ww fuel :
  receive_exact rr fuel [] = ([], [], Some (Returned (Ok tt))) /\
  write ww fuel [] = ([], Some (Ok tt)).
Proof. destruct fuel; split; reflexivity. Qed.

(** [PeerVerification::as_integer] gives the three modes three different
    values, all in [0..2]. *)
Theorem as_integer_distinct p q :
  (0 <= as_integer p <= 2)%Z /\ (as_integer p = as_integer q <-> p = q).
Proof.
  split; [destruct p; cbn; lia|].
  split; [|intros ->; reflexivity].
  destruct p, q; cbn; congruence.
Qed.

(** * Witnesses of the further properties *)

Lemma connect_ok_provenance_witness :
  snd (connect_with_cancellation env_retry Enabled [7%Z] default_token)
    = Returned (Ok (mkTlsStream (mkSocket 4))) /\
  exists addrs i a, to_socket_addrs env_retry = Ok addrs /\ nth_error addrs i = Some a /\
    reaches_handshake env_retry default_token Enabled [7%Z] i a (mkSocket 4) /\
    sock_connect env_retry i a = Ok tt /\ lte_deactivate env_retry = Ok tt.
Proof.
  split; [reflexivity|].
  apply (connect_ok_provenance env_retry Enabled [7%Z] default_token
           (mkTlsStream (mkSocket 4))).
  reflexivity.
Defined.

Lemma connect_panic_cause_witness :
  snd (connect_with_cancellation env_unresolvable Enabled [7%Z] default_token) = Panicked /\
  lte_new env_unresolvable = Ok tt /\
  (to_socket_addrs env_unresolvable = Err tt \/
   (to_socket_addrs env_unresolvable = Ok [] /\ lte_deactivate env_unresolvable = Ok tt)).
Proof.
  split; [reflexivity|].
  apply (connect_panic_cause env_unresolvable Enabled [7%Z] default_token).
  reflexivity.
Defined.

Lemma connect_error_source_witness :
  snd (connect_with_cancellation env_tags_refused Enabled [7%Z] default_token)
    = Returned (Err (NrfError 22)) /\
  error_source env_tags_refused default_token (NrfError 22).
Proof.
  split; [reflexivity|].
  apply (connect_error_source env_tags_refused Enabled [7%Z] default_token).
  reflexivity.
Defined.


Lemma connect_link_activation_fails_witness :
  connect_with_cancellation env_no_link Enabled [7%Z] default_token
    = ([LinkActivate], Returned (Err (NrfError 3))).
Proof.
  apply (connect_link_activation_fails env_no_link Enabled [7%Z] default_token).
  reflexivity.
Defined.

Lemma receive_exact_fills_in_ceil_calls_witness :
  let '(calls, _, r) := receive_exact rr_fill 2 (repeat Byte.x2a 1500) in
  r = Some (Returned (Ok tt)) /\ length calls = (length (repeat Byte.x2a 1500) + 1023) / 1024.
Proof.
  apply (receive_exact_fills_in_ceil_calls rr_fill 2 (repeat Byte.x2a 1500)).
  - intros k n. exists (repeat Byte.x2a n). split; [reflexivity|].
    rewrite repeat_length. lia.
  - vm_compute. lia.
Defined.

Lemma receive_exact_waits_without_progress_witness :
  receive_exact rr_silent 3 [Byte.x2a] =
  (repeat (Nat.min 1024 (length [Byte.x2a]), Ok []) 3, [Byte.x2a], None).
Proof.
  apply (receive_exact_waits_without_progress rr_silent 3 [Byte.x2a]).
  - intros k n. reflexivity.
  - discriminate.
Defined.

Lemma write_whole_chunks_in_ceil_calls_witness :
  let '(calls, r) := write ww_accept_all 2 (repeat Byte.x2a 1500) in
  r = Some (Ok tt) /\ length calls = (length (repeat Byte.x2a 1500) + 1023) / 1024 /\
  concat (map fst calls) = repeat Byte.x2a 1500.
Proof.
  apply (write_whole_chunks_in_ceil_calls ww_accept_all 2 (repeat Byte.x2a 1500)).
  - intros k c. reflexivity.
  - vm_compute. lia.
Defined.

Lemma write_waits_without_progress_witness :
  write ww_stalled 3 [Byte.x2a] =
  (repeat (firstn (Nat.min 1024 (length [Byte.x2a])) [Byte.x2a], Ok 0) 3, None).
Proof.
  apply (write_waits_without_progress ww_stalled 3 [Byte.x2a]).
  - intros k c. reflexivity.
  - discriminate.
Defined.
